(** * The bundle validator of ocitools (command [validate]), embedded and verified

    The source is one Go file, [validate.go] (with [runtimetest.go] in front
    of it).  The checkers are pure apart from two probes of the host file
    system; they are embedded here as Rocq functions over records that mirror
    the structs of [runtime-spec/specs-go].  A few functions of Go's standard
    library are embedded next to them ([utf8], [unicode], [strings], [path],
    [regexp], [reflect]), each in a module named after its package.

    Conventions:
    - a Go [string] is a sequence of bytes: [String.string];
    - a [rune], an [int64] and a file mode are integers in [Z];
    - a run-time panic is the result [Panic]; a function that cannot panic
      returns its value directly;
    - an [error] built by [fmt.Errorf] is a constructor of [error] that keeps
      the arguments of the format;
    - what the validator takes from outside its file (the Unicode tables,
      the list of capabilities, the host file system, the reflection of a
      [Spec]) is a field of the record [Setting], and every property is
      proved for every setting. *)

From Stdlib Require Import String Ascii List ZArith NArith Lia Bool Permutation.
Import ListNotations.

Set Implicit Arguments.

#[local] Open Scope string_scope.
#[local] Open Scope list_scope.

(** ** Results of functions that may panic *)

Inductive result (A : Type) : Type :=
| Ok (a : A)
| Panic.

Arguments Ok {A} a.
Arguments Panic {A}.

Definition bind {A B : Type} (m : result A) (k : A -> result B) : result B :=
  match m with
  | Ok a => k a
  | Panic => Panic
  end.

Notation "x <- m ;; k" := (bind m (fun x => k))
  (at level 61, m at next level, right associativity).

(** A byte of a string as the integer Go reads with [s[i]]. *)
Definition byte (c : ascii) : Z := Z.of_N (N_of_ascii c).

Definition rune := Z.

(** [s[i:]] and [s[0:i]]. *)
Definition sliceFrom (s : string) (i : nat) : string := substring i (String.length s - i) s.
Definition sliceTo (s : string) (i : nat) : string := substring 0 i s.

(** [s[i]] for an index the caller has checked; 0 stands for no byte. *)
Definition byteAt (s : string) (i : nat) : Z :=
  match get i s with
  | Some c => byte c
  | None => 0%Z
  end.

(** ** Package [unicode/utf8] *)

Module utf8.
#[local] Open Scope Z_scope.

Definition RuneError : rune := 65533.
Definition RuneSelf : Z := 128.
Definition UTFMax : nat := 4.

Definition maskx := 63.
Definition mask2 := 31.
Definition mask3 := 15.
Definition mask4 := 7.
Definition locb := 128.
Definition hicb := 191.

(** The entries of the table [first]: the low three bits are the size of
    the encoding, the high four bits index [acceptRanges]. *)
Definition xx := 241.
Definition as_ := 240.
Definition s1 := 2.
Definition s2 := 19.
Definition s3 := 3.
Definition s4 := 35.
Definition s5 := 52.
Definition s6 := 4.
Definition s7 := 68.

Definition first (b : Z) : Z :=
  if b <? 128 then as_
  else if b <? 194 then xx
  else if b <? 224 then s1
  else if b =? 224 then s2
  else if b <? 237 then s3
  else if b =? 237 then s4
  else if b <? 240 then s3
  else if b =? 240 then s5
  else if b <? 244 then s6
  else if b =? 244 then s7
  else xx.

Definition acceptRanges (i : Z) : Z * Z :=
  if i =? 1 then (160, hicb)
  else if i =? 2 then (locb, 159)
  else if i =? 3 then (144, hicb)
  else if i =? 4 then (locb, 143)
  else (locb, hicb).

Definition DecodeRuneInString (s : string) : rune * nat :=
  let n := String.length s in
  if (n <? 1)%nat then (RuneError, 0%nat)
  else
    let s0 := byteAt s 0 in
    let x := first s0 in
    if as_ <=? x then ((if x =? xx then RuneError else s0), 1%nat)
    else
      let sz := Z.to_nat (Z.land x 7) in
      let accept := acceptRanges (Z.shiftr x 4) in
      if (n <? sz)%nat then (RuneError, 1%nat)
      else
        let b1 := byteAt s 1 in
        if (b1 <? fst accept) || (snd accept <? b1) then (RuneError, 1%nat)
        else if (sz <=? 2)%nat then
          (Z.lor (Z.shiftl (Z.land s0 mask2) 6) (Z.land b1 maskx), 2%nat)
        else
          let b2 := byteAt s 2 in
          if (b2 <? locb) || (hicb <? b2) then (RuneError, 1%nat)
          else if (sz <=? 3)%nat then
            (Z.lor (Z.lor (Z.shiftl (Z.land s0 mask3) 12)
                          (Z.shiftl (Z.land b1 maskx) 6))
                   (Z.land b2 maskx), 3%nat)
          else
            let b3 := byteAt s 3 in
            if (b3 <? locb) || (hicb <? b3) then (RuneError, 1%nat)
            else
              (Z.lor (Z.lor (Z.lor (Z.shiftl (Z.land s0 mask4) 18)
                                   (Z.shiftl (Z.land b1 maskx) 12))
                            (Z.shiftl (Z.land b2 maskx) 6))
                     (Z.land b3 maskx), 4%nat).

Definition RuneStart (b : Z) : bool := negb (Z.land b 192 =? 128).

(** The loop of [DecodeLastRuneInString] that walks back to the start of
    the last rune: [start] is decremented while it is at least [lim] and
    [s[start]] is a continuation byte.  [None] is a negative [start]. *)
Fixpoint backToStart (s : string) (lim : nat) (start : nat) : option nat :=
  if (start <? lim)%nat then Some start
  else if RuneStart (byteAt s start) then Some start
  else
    match start with
    | O => None
    | S p => backToStart s lim p
    end.

Definition DecodeLastRuneInString (s : string) : rune * nat :=
  let end_ := String.length s in
  if (end_ =? 0)%nat then (RuneError, 0%nat)
  else
    let start := (end_ - 1)%nat in
    let r := byteAt s start in
    if r <? RuneSelf then (r, 1%nat)
    else
      let lim := (end_ - UTFMax)%nat in
      let start :=
        match start with
        | O => O
        | S p => match backToStart s lim p with Some i => i | None => O end
        end in
      let '(r, size) := DecodeRuneInString (substring start (end_ - start) s) in
      if negb (start + size =? end_)%nat then (RuneError, 1%nat)
      else (r, size).

(** [for _, ch := range s]: the runes of [s] in order.  [skip] counts the
    bytes of the current rune still to pass over. *)
Fixpoint rangeFrom (s : string) (skip : nat) : list rune :=
  match s with
  | EmptyString => []
  | String _ s' =>
      match skip with
      | S k => rangeFrom s' k
      | O => let '(r, size) := DecodeRuneInString s in r :: rangeFrom s' (size - 1)
      end
  end.

Definition range (s : string) : list rune := rangeFrom s 0.

End utf8.

(** ** Package [unicode] *)

Module unicode.
#[local] Open Scope Z_scope.

Definition MaxLatin1 : rune := 255.

(** The range tables [Letter], [Digit] and [White_Space] of the package,
    as the predicates [isExcludingLatin] computes from them.  The tables are
    data of the Go distribution; the validator is verified for any. *)
Record Tables : Type := {
  Letter : rune -> bool;
  Digit : rune -> bool;
  White_Space : rune -> bool
}.

(** The letters of Latin-1, from the package's [properties] array (the
    entries that carry [pLu] or [pLl] or [pLo]). *)
Definition latin1Letter (r : rune) : bool :=
  ((65 <=? r) && (r <=? 90)) || ((97 <=? r) && (r <=? 122))
  || (r =? 170) || (r =? 181) || (r =? 186)
  || ((192 <=? r) && (r <=? 214)) || ((216 <=? r) && (r <=? 246))
  || ((248 <=? r) && (r <=? 255)).

Definition isLatin1 (r : rune) : bool := (0 <=? r) && (r <=? MaxLatin1).

Definition IsLetter (T : Tables) (r : rune) : bool :=
  if isLatin1 r then latin1Letter r else Letter T r.

Definition IsDigit (T : Tables) (r : rune) : bool :=
  if r <=? MaxLatin1 then (48 <=? r) && (r <=? 57) else Digit T r.

Definition IsSpace (T : Tables) (r : rune) : bool :=
  if isLatin1 r then
    (r =? 9) || (r =? 10) || (r =? 11) || (r =? 12) || (r =? 13)
    || (r =? 32) || (r =? 133) || (r =? 160)
  else White_Space T r.

(** Tables with nothing outside Latin-1, to evaluate the validator on
    inputs whose runes are all in Latin-1. *)
Definition noTables : Tables :=
  {| Letter := fun _ => false; Digit := fun _ => false; White_Space := fun _ => false |}.

End unicode.

(** ** Package [strings] *)

Module strings.

(** [strings.Split(s, sep)] for a separator [sep] of one byte (the validator
    splits at ["="] only): the pieces of [s] between the separators. *)
Fixpoint Split (s : string) (sep : ascii) : list string :=
  match s with
  | EmptyString => [EmptyString]
  | String a s' =>
      if Ascii.eqb a sep then EmptyString :: Split s' sep
      else
        match Split s' sep with
        | piece :: pieces => String a piece :: pieces
        | [] => [String a EmptyString]
        end
  end.

Definition HasPrefix (s pre : string) : bool := prefix pre s.

(** [strings.Contains(s, substr)]: [substr] starts at some index of [s]. *)
Fixpoint Contains (s substr : string) : bool :=
  prefix substr s
  || match s with
     | EmptyString => false
     | String _ s' => Contains s' substr
     end.

(** [indexFunc(s, f, truth)], the loop from index [start]; each turn moves
    [start] forward by at least one byte, so [fuel] turns are enough when
    [fuel] is the length of [s].  [None] is -1. *)
Fixpoint indexFuncFrom (fuel : nat) (s : string) (f : rune -> bool) (truth : bool)
    (start : nat) : option nat :=
  match fuel with
  | O => None
  | S fuel' =>
      if (start <? String.length s)%nat then
        let r0 := byteAt s start in
        let '(r, wid) :=
          if (utf8.RuneSelf <=? r0)%Z then utf8.DecodeRuneInString (sliceFrom s start)
          else (r0, 1%nat) in
        if Bool.eqb (f r) truth then Some start
        else indexFuncFrom fuel' s f truth (start + wid)
      else None
  end.

Definition indexFunc (s : string) (f : rune -> bool) (truth : bool) : option nat :=
  indexFuncFrom (String.length s) s f truth 0.

(** [lastIndexFunc(s, f, truth)], the loop from [i]; each turn moves [i]
    back by at least one byte. *)
Fixpoint lastIndexFuncFrom (fuel : nat) (s : string) (f : rune -> bool) (truth : bool)
    (i : nat) : option nat :=
  match fuel with
  | O => None
  | S fuel' =>
      if (0 <? i)%nat then
        let '(r, size) := utf8.DecodeLastRuneInString (sliceTo s i) in
        let i := (i - size)%nat in
        if Bool.eqb (f r) truth then Some i
        else lastIndexFuncFrom fuel' s f truth i
      else None
  end.

Definition lastIndexFunc (s : string) (f : rune -> bool) (truth : bool) : option nat :=
  lastIndexFuncFrom (String.length s) s f truth (String.length s).

Definition TrimLeftFunc (s : string) (f : rune -> bool) : string :=
  match indexFunc s f false with
  | None => EmptyString
  | Some i => sliceFrom s i
  end.

Definition TrimRightFunc (s : string) (f : rune -> bool) : string :=
  match lastIndexFunc s f false with
  | Some i =>
      if (utf8.RuneSelf <=? byteAt s i)%Z then
        let '(_, wid) := utf8.DecodeRuneInString (sliceFrom s i) in
        sliceTo s (i + wid)
      else sliceTo s (i + 1)
  | None => sliceTo s 0
  end.

Definition TrimFunc (s : string) (f : rune -> bool) : string :=
  TrimRightFunc (TrimLeftFunc s f) f.

Definition TrimSpace (T : unicode.Tables) (s : string) : string :=
  TrimFunc s (unicode.IsSpace T).

(** [strings.Join(a, sep)]. *)
Definition Join (a : list string) (sep : string) : string := String.concat sep a.

End strings.

(** ** Packages [path] and [path/filepath] (on Unix) *)

Module path.

Definition IsAbs (p : string) : bool :=
  (0 <? String.length p)%nat && (byteAt p 0 =? 47)%Z.

(** [path.Join]: the elements from the first non-empty one on, joined by
    slashes and cleaned.  [Clean] is the lexical normalisation of the
    package; the validator uses its result only as the name of a file to
    probe, so it is left open here. *)
Fixpoint Join (Clean : string -> string) (elem : list string) : string :=
  match elem with
  | [] => EmptyString
  | e :: rest =>
      if (String.length e =? 0)%nat then Join Clean rest
      else Clean (strings.Join elem "/")
  end.

End path.

Module filepath.

Definition IsAbs (p : string) : bool := strings.HasPrefix p "/".

End filepath.

(** ** Package [regexp] *)

Module regexp.

(** The syntax tree of a parsed expression ([regexp/syntax.Regexp]) for the
    operators the validator's pattern uses.  A class is a list of ranges
    [(lo, hi)] of byte values, as [\d] is [[(48, 57)]]. *)
Inductive Regexp : Type :=
| OpNoMatch
| OpEmptyMatch
| OpLiteral (c : ascii)
| OpCharClass (ranges : list (Z * Z))
| OpBeginText
| OpEndText
| OpCapture (sub : Regexp)
| OpStar (sub : Regexp)
| OpPlus (sub : Regexp)
| OpQuest (sub : Regexp)
| OpConcat (r1 r2 : Regexp)
| OpAlternate (r1 r2 : Regexp).

Definition inClass (ranges : list (Z * Z)) (c : ascii) : bool :=
  existsb (fun lohi => (fst lohi <=? byte c)%Z && (byte c <=? snd lohi)%Z) ranges.

(** Does [r] match the empty string at a position that is the beginning of
    the text iff [bot] and the end of the text iff [eot]? *)
Fixpoint nullable (bot eot : bool) (r : Regexp) : bool :=
  match r with
  | OpNoMatch => false
  | OpEmptyMatch => true
  | OpLiteral _ => false
  | OpCharClass _ => false
  | OpBeginText => bot
  | OpEndText => eot
  | OpCapture sub => nullable bot eot sub
  | OpStar _ => true
  | OpPlus sub => nullable bot eot sub
  | OpQuest _ => true
  | OpConcat r1 r2 => nullable bot eot r1 && nullable bot eot r2
  | OpAlternate r1 r2 => nullable bot eot r1 || nullable bot eot r2
  end.

(** What is left of [r] to match after the byte [c], read at a position
    that is the beginning of the text iff [bot]. *)
Fixpoint deriv (bot : bool) (c : ascii) (r : Regexp) : Regexp :=
  match r with
  | OpNoMatch => OpNoMatch
  | OpEmptyMatch => OpNoMatch
  | OpLiteral a => if Ascii.eqb a c then OpEmptyMatch else OpNoMatch
  | OpCharClass ranges => if inClass ranges c then OpEmptyMatch else OpNoMatch
  | OpBeginText => OpNoMatch
  | OpEndText => OpNoMatch
  | OpCapture sub => deriv bot c sub
  | OpStar sub => OpConcat (deriv bot c sub) (OpStar sub)
  | OpPlus sub => OpConcat (deriv bot c sub) (OpStar sub)
  | OpQuest sub => deriv bot c sub
  | OpConcat r1 r2 =>
      OpAlternate (OpConcat (deriv bot c r1) r2)
                  (if nullable bot false r1 then deriv bot c r2 else OpNoMatch)
  | OpAlternate r1 r2 => OpAlternate (deriv bot c r1) (deriv bot c r2)
  end.

(** [r] matches some prefix of [s], [s] being the rest of the text. *)
Fixpoint matchPrefix (bot : bool) (r : Regexp) (s : string) : bool :=
  match s with
  | EmptyString => nullable bot true r
  | String c s' => nullable bot false r || matchPrefix false (deriv bot c r) s'
  end.

(** The unanchored search of [Regexp.Match]: a match may start anywhere. *)
Fixpoint search (bot : bool) (r : Regexp) (s : string) : bool :=
  matchPrefix bot r s
  || match s with
     | EmptyString => false
     | String _ s' => search false r s'
     end.

Definition Match (re : Regexp) (b : string) : bool := search true re b.

(** What it means for [r] to match the piece [w] of the text
    [pre ++ w ++ post]. *)
Inductive matches : Regexp -> string -> string -> string -> Prop :=
| MEmpty pre post : matches OpEmptyMatch pre "" post
| MLiteral c pre post : matches (OpLiteral c) pre (String c "") post
| MCharClass ranges c pre post :
    inClass ranges c = true -> matches (OpCharClass ranges) pre (String c "") post
| MBeginText post : matches OpBeginText "" "" post
| MEndText pre : matches OpEndText pre "" ""
| MCapture r pre w post : matches r pre w post -> matches (OpCapture r) pre w post
| MStarNil r pre post : matches (OpStar r) pre "" post
| MStarCons r pre w1 w2 post :
    matches r pre w1 (w2 ++ post) ->
    matches (OpStar r) (pre ++ w1) w2 post ->
    matches (OpStar r) pre (w1 ++ w2) post
| MPlus r pre w1 w2 post :
    matches r pre w1 (w2 ++ post) ->
    matches (OpStar r) (pre ++ w1) w2 post ->
    matches (OpPlus r) pre (w1 ++ w2) post
| MQuestNil r pre post : matches (OpQuest r) pre "" post
| MQuest r pre w post : matches r pre w post -> matches (OpQuest r) pre w post
| MConcat r1 r2 pre w1 w2 post :
    matches r1 pre w1 (w2 ++ post) ->
    matches r2 (pre ++ w1) w2 post ->
    matches (OpConcat r1 r2) pre (w1 ++ w2) post
| MAltL r1 r2 pre w post : matches r1 pre w post -> matches (OpAlternate r1 r2) pre w post
| MAltR r1 r2 pre w post : matches r2 pre w post -> matches (OpAlternate r1 r2) pre w post.

End regexp.

(** ** Package [reflect] *)

Module reflect.

(** The kinds of [bool] and of the numbers. *)
Inductive BasicKind : Type :=
| Bool | Int | Int8 | Int16 | Int32 | Int64
| Uint | Uint8 | Uint16 | Uint32 | Uint64 | Uintptr
| Float32 | Float64 | Complex64 | Complex128.

(** The kinds with no structure the walker could look into. *)
Inductive OpaqueKind : Type := Array | Chan | Func | UnsafePointer.

Inductive Kind : Type :=
| Basic (k : BasicKind)
| Opaque (k : OpaqueKind)
| Interface
| Map
| Ptr
| Slice
| String
| Struct.

(** A struct tag, parsed: the pairs [key:"value"] in order. *)
Definition StructTag : Type := list (string * string).

Fixpoint Get (tag : StructTag) (key : string) : string :=
  match tag with
  | [] => EmptyString
  | (k, v) :: rest => if String.eqb k key then v else Get rest key
  end.

(** [StructField]: [exported] is an empty [PkgPath]. *)
Record StructField : Type := {
  Name : string;
  Tag : StructTag;
  exported : bool
}.

(** A value together with what [reflect] tells of its type.
    - [VBasic k bits]: a boolean or a number of kind [k];
    - [VOpaque k]: an array, channel, function or unsafe pointer;
    - [VInterface dyn]: a value of interface type holding [dyn] (or nil);
    - [VNil elem numField]: a nil pointer to a type of kind [elem] (with
      [numField] fields when it is a struct);
    - [VPtr target]: a pointer to [target];
    - [VSlice elems]: a slice, nil when empty or not;
    - [VMap isNil entries]: a map, its entries in the order of [MapKeys];
    - [VStruct name fields]: a struct of the type named [name]. *)
#[warnings="-register-all"]
Inductive Value : Type :=
| VBasic (k : BasicKind) (bits : Z)
| VOpaque (k : OpaqueKind)
| VInterface (dyn : option Value)
| VString (s : string)
| VNil (elem : Kind) (numField : nat)
| VPtr (target : Value)
| VSlice (elems : list Value)
| VMap (isNil : bool) (entries : list (Value * Value))
| VStruct (name : string) (fields : list (StructField * Value)).

Definition kindOf (v : Value) : Kind :=
  match v with
  | VBasic k _ => Basic k
  | VOpaque k => Opaque k
  | VInterface _ => Interface
  | VString _ => String
  | VNil _ _ => Ptr
  | VPtr _ => Ptr
  | VSlice _ => Slice
  | VMap _ _ => Map
  | VStruct _ _ => Struct
  end.

Definition isStructKind (k : Kind) : bool :=
  match k with
  | Struct => true
  | _ => false
  end.

(** [t.Elem().Kind()] of the type of a pointer. *)
Definition elemKind (v : Value) : option Kind :=
  match v with
  | VNil elem _ => Some elem
  | VPtr target => Some (kindOf target)
  | _ => None
  end.

(** [v.IsNil()], which the walker calls on pointers and maps only. *)
Definition IsNil (v : Value) : bool :=
  match v with
  | VNil _ _ => true
  | VMap isNil _ => isNil
  | _ => false
  end.

(** [v.Len()], which the walker calls on strings, slices and maps only. *)
Definition Len (v : Value) : nat :=
  match v with
  | VString s => String.length s
  | VSlice elems => List.length elems
  | VMap _ entries => List.length entries
  | _ => 0
  end.

End reflect.

(** ** Package [os] *)

Module os.

Record FileInfo : Type := {
  Mode : Z;
  IsDir : bool
}.

End os.

(** ** Package [specs-go] of runtime-spec, imported as [rspec]

    The structs with the fields the checkers read.  The package is not part
    of the validator's repository; the constants are the strings it declares. *)

Module rspec.

Record Platform : Type := {
  OS : string;
  Arch : string
}.

Record Rlimit : Type := {
  Rlimit_Type : string;
  Rlimit_Hard : Z;
  Rlimit_Soft : Z
}.

Record Process : Type := {
  Cwd : string;
  Env : list string;
  Capabilities : list string;
  Rlimits : list Rlimit;
  ApparmorProfile : string
}.

Record IDMapping : Type := {
  HostID : Z;
  ContainerID : Z;
  Size : Z
}.

Definition NamespaceType : Type := string.

Definition PIDNamespace : NamespaceType := "pid".
Definition NetworkNamespace : NamespaceType := "network".
Definition MountNamespace : NamespaceType := "mount".
Definition IPCNamespace : NamespaceType := "ipc".
Definition UTSNamespace : NamespaceType := "uts".
Definition UserNamespace : NamespaceType := "user".

Record Namespace : Type := {
  Namespace_Type : NamespaceType;
  Namespace_Path : string
}.

Record Device : Type := {
  Device_Path : string;
  Device_Type : string;
  Major : Z;
  Minor : Z
}.

Definition Action : Type := string.

Definition ActKill : Action := "SCMP_ACT_KILL".
Definition ActTrap : Action := "SCMP_ACT_TRAP".
Definition ActErrno : Action := "SCMP_ACT_ERRNO".
Definition ActTrace : Action := "SCMP_ACT_TRACE".
Definition ActAllow : Action := "SCMP_ACT_ALLOW".

Definition Operator : Type := string.

Definition OpNotEqual : Operator := "SCMP_CMP_NE".
Definition OpLessThan : Operator := "SCMP_CMP_LT".
Definition OpLessEqual : Operator := "SCMP_CMP_LE".
Definition OpEqualTo : Operator := "SCMP_CMP_EQ".
Definition OpGreaterEqual : Operator := "SCMP_CMP_GE".
Definition OpGreaterThan : Operator := "SCMP_CMP_GT".
Definition OpMaskedEqual : Operator := "SCMP_CMP_MASKED_EQ".

Definition Arch_ : Type := string.

Definition ArchX86 : Arch_ := "SCMP_ARCH_X86".
Definition ArchX86_64 : Arch_ := "SCMP_ARCH_X86_64".
Definition ArchX32 : Arch_ := "SCMP_ARCH_X32".
Definition ArchARM : Arch_ := "SCMP_ARCH_ARM".
Definition ArchAARCH64 : Arch_ := "SCMP_ARCH_AARCH64".
Definition ArchMIPS : Arch_ := "SCMP_ARCH_MIPS".
Definition ArchMIPS64 : Arch_ := "SCMP_ARCH_MIPS64".
Definition ArchMIPS64N32 : Arch_ := "SCMP_ARCH_MIPS64N32".
Definition ArchMIPSEL : Arch_ := "SCMP_ARCH_MIPSEL".
Definition ArchMIPSEL64 : Arch_ := "SCMP_ARCH_MIPSEL64".
Definition ArchMIPSEL64N32 : Arch_ := "SCMP_ARCH_MIPSEL64N32".

Record Arg : Type := {
  Index : Z;
  Value : Z;
  ValueTwo : Z;
  Op : Operator
}.

Record Syscall : Type := {
  Syscall_Name : string;
  Syscall_Action : Action;
  Args : list Arg
}.

Record Seccomp : Type := {
  DefaultAction : Action;
  Architectures : list Arch_;
  Syscalls : list Syscall
}.

Record Linux : Type := {
  UIDMappings : list IDMapping;
  GIDMappings : list IDMapping;
  Namespaces : list Namespace;
  Devices : list Device;
  Seccomp_ : option Seccomp;
  RootfsPropagation : string
}.

Record Hook : Type := {
  Hook_Path : string;
  Hook_Args : list string;
  Hook_Env : list string
}.

Record Hooks : Type := {
  Prestart : list Hook;
  Poststart : list Hook;
  Poststop : list Hook
}.

Record Spec : Type := {
  Version : string;
  Platform_ : Platform;
  Process_ : Process;
  Hostname : string;
  Hooks_ : Hooks;
  Linux_ : Linux
}.

End rspec.

(** ** The errors of the validator

    One constructor for each [fmt.Errorf] of the source, with the arguments
    of its format; [ErrStat] is the error [os.Stat] returned for a name. *)

Inductive error : Type :=
| ErrVersion (version : string)
| ErrCombination (os arch : string)
| ErrOperationSystem (os : string)
| ErrHookNotAbsolute (hookType path : string)
| ErrHookNotFound (hookType path : string)
| ErrHookNotExecutable (hookType path : string)
| ErrHookEnv (env path : string)
| ErrCwd (cwd : string)
| ErrEnv (env : string)
| ErrCapability (capability : string)
| ErrRlimit (type : string)
| ErrStat (name : string)
| ErrUIDMappings
| ErrGIDMappings
| ErrNamespace (ns : rspec.Namespace)
| ErrHostnameUTS
| ErrDevice (d : rspec.Device)
| ErrRootfsPropagation
| ErrDefaultAction (action : rspec.Action)
| ErrSyscall (s : rspec.Syscall)
| ErrArchitecture (arch : rspec.Arch_)
| ErrUnitEmpty (parent name : string)
| ErrStructPtrEmpty (parent name : string).

(** ** validate.go *)

(** [configCheck]: a checker either returns its errors or panics. *)
Definition configCheck : Type := rspec.Spec -> string -> result (list error).

Definition defaultRlimits : list string :=
  [ "RLIMIT_CPU"; "RLIMIT_FSIZE"; "RLIMIT_DATA"; "RLIMIT_STACK"; "RLIMIT_CORE";
    "RLIMIT_RSS"; "RLIMIT_NPROC"; "RLIMIT_NOFILE"; "RLIMIT_MEMLOCK"; "RLIMIT_AS";
    "RLIMIT_LOCKS"; "RLIMIT_SIGPENDING"; "RLIMIT_MSGQUEUE"; "RLIMIT_NICE";
    "RLIMIT_RTPRIO"; "RLIMIT_RTTIME" ].

(** *** checkSemVer *)

Definition digitClass : regexp.Regexp := regexp.OpCharClass [(48, 57)%Z].

(** [(\d+)?] *)
Definition optionalNumber : regexp.Regexp :=
  regexp.OpQuest (regexp.OpCapture (regexp.OpPlus digitClass)).

(** [\.] *)
Definition dot : regexp.Regexp := regexp.OpLiteral "."%char.

(** The expression [regexp.Compile] parses from
    ["^(\\d+)?\\.(\\d+)?\\.(\\d+)?$"]. *)
Definition semVerPattern : regexp.Regexp :=
  regexp.OpConcat regexp.OpBeginText
    (regexp.OpConcat optionalNumber
      (regexp.OpConcat dot
        (regexp.OpConcat optionalNumber
          (regexp.OpConcat dot
            (regexp.OpConcat optionalNumber regexp.OpEndText))))).

Definition checkSemVer (spec : rspec.Spec) (rootfs : string) : list error :=
  let version := rspec.Version spec in
  let re := semVerPattern in
  if negb (regexp.Match re version) then [ErrVersion version]
  else [].

(** *** checkPlatform *)

Definition validCombins : list (string * list string) :=
  [ ("darwin", ["386"; "amd64"; "arm"; "arm64"]);
    ("dragonfly", ["amd64"]);
    ("freebsd", ["386"; "amd64"; "arm"]);
    ("linux", ["386"; "amd64"; "arm"; "arm64"; "ppc64"; "ppc64le"; "mips64"; "mips64le"]);
    ("netbsd", ["386"; "amd64"; "arm"]);
    ("openbsd", ["386"; "amd64"; "arm"]);
    ("plan9", ["386"; "amd64"]);
    ("solaris", ["amd64"]);
    ("windows", ["386"; "amd64"]) ].

(** The inner loop: is [arch] among [archs]? *)
Fixpoint rangeArchs (archs : list string) (arch : string) : bool :=
  match archs with
  | [] => false
  | a :: rest => if String.eqb a arch then true else rangeArchs rest arch
  end.

(** The loop over the map, its entries in the order [entries] the run
    happens to visit them in. *)
Fixpoint rangeCombins (entries : list (string * list string)) (platform : rspec.Platform)
    : list error :=
  match entries with
  | [] => [ErrOperationSystem (rspec.OS platform)]
  | (os, archs) :: rest =>
      if String.eqb os (rspec.OS platform) then
        if rangeArchs archs (rspec.Arch platform) then []
        else [ErrCombination (rspec.OS platform) (rspec.Arch platform)]
      else rangeCombins rest platform
  end.

Definition checkPlatform (spec : rspec.Spec) (rootfs : string) : list error :=
  let platform := rspec.Platform_ spec in
  rangeCombins validCombins platform.

(** *** What a run finds around it

    - [tables]: the Unicode tables of the Go distribution;
    - [defaultCaps]: the capability names, a variable that another file of
      the package declares;
    - [Clean]: [path.Clean];
    - [ValueOf]: what [reflect] shows of a [rspec.Spec], fixed by the struct
      declarations and tags of [specs-go];
    - [Stat]: [os.Stat] on the host, [None] when it returns an error. *)
Record Setting : Type := {
  tables : unicode.Tables;
  defaultCaps : list string;
  Clean : string -> string;
  ValueOf : rspec.Spec -> reflect.Value;
  Stat : string -> option os.FileInfo
}.

(** *** envValid *)

(** The loop over the runes of the key. *)
Fixpoint rangeKey (T : unicode.Tables) (runes : list rune) : bool :=
  match runes with
  | [] => true
  | ch :: rest =>
      if negb (unicode.IsDigit T ch) && negb (unicode.IsLetter T ch) && negb (ch =? 95)%Z
      then false
      else rangeKey T rest
  end.

Definition envValid (T : unicode.Tables) (env : string) : bool :=
  let items := strings.Split env "="%char in
  if (List.length items <? 2)%nat then false
  else rangeKey T (utf8.range (strings.TrimSpace T (hd EmptyString items))).

(** *** capValid, rlimitValid *)

Fixpoint rangeNames (names : list string) (name : string) : bool :=
  match names with
  | [] => false
  | val :: rest => if String.eqb val name then true else rangeNames rest name
  end.

Definition capValid (caps : list string) (capability : string) : bool :=
  rangeNames caps capability.

Definition rlimitValid (rlimit : string) : bool :=
  rangeNames defaultRlimits rlimit.

(** *** namespaceValid, deviceValid, seccompActionValid, syscallValid *)

Definition namespaceValid (ns : rspec.Namespace) : bool :=
  let type := rspec.Namespace_Type ns in
  if String.eqb type rspec.PIDNamespace then true
  else if String.eqb type rspec.NetworkNamespace then true
  else if String.eqb type rspec.MountNamespace then true
  else if String.eqb type rspec.IPCNamespace then true
  else if String.eqb type rspec.UTSNamespace then true
  else if String.eqb type rspec.UserNamespace then true
  else false.

Definition deviceValid (d : rspec.Device) : bool :=
  let type := rspec.Device_Type d in
  if String.eqb type "b" then true
  else if String.eqb type "c" then true
  else if String.eqb type "u" then
    if (rspec.Major d <=? 0)%Z then false
    else if (rspec.Minor d <=? 0)%Z then false
    else true
  else if String.eqb type "p" then
    if (0 <? rspec.Major d)%Z || (0 <? rspec.Minor d)%Z then false
    else true
  else false.

Definition seccompActionValid (secc : rspec.Action) : bool :=
  if String.eqb secc "" then true
  else if String.eqb secc rspec.ActKill then true
  else if String.eqb secc rspec.ActTrap then true
  else if String.eqb secc rspec.ActErrno then true
  else if String.eqb secc rspec.ActTrace then true
  else if String.eqb secc rspec.ActAllow then true
  else false.

Definition opValid (op : rspec.Operator) : bool :=
  if String.eqb op rspec.OpNotEqual then true
  else if String.eqb op rspec.OpLessEqual then true
  else if String.eqb op rspec.OpEqualTo then true
  else if String.eqb op rspec.OpGreaterEqual then true
  else if String.eqb op rspec.OpGreaterThan then true
  else if String.eqb op rspec.OpMaskedEqual then true
  else false.

Fixpoint rangeArgs (args : list rspec.Arg) : bool :=
  match args with
  | [] => true
  | arg :: rest => if opValid (rspec.Op arg) then rangeArgs rest else false
  end.

Definition syscallValid (s : rspec.Syscall) : bool :=
  if negb (seccompActionValid (rspec.Syscall_Action s)) then false
  else rangeArgs (rspec.Args s).

(** *** checkSeccomp *)

Fixpoint rangeSyscalls (syscalls : list rspec.Syscall) : list error :=
  match syscalls with
  | [] => []
  | s :: rest =>
      (if negb (syscallValid s) then [ErrSyscall s] else []) ++ rangeSyscalls rest
  end.

(** The switch over a declared architecture: [true] in the cases that do
    nothing, [false] in the default case. *)
Definition switchArchitecture (arch : rspec.Arch_) : bool :=
  if String.eqb arch rspec.ArchX86 then true
  else if String.eqb arch rspec.ArchX86_64 then true
  else if String.eqb arch rspec.ArchX32 then true
  else if String.eqb arch rspec.ArchARM then true
  else if String.eqb arch rspec.ArchAARCH64 then true
  else if String.eqb arch rspec.ArchMIPS then true
  else if String.eqb arch rspec.ArchMIPS64 then true
  else if String.eqb arch rspec.ArchMIPS64N32 then true
  else if String.eqb arch rspec.ArchMIPSEL then true
  else if String.eqb arch rspec.ArchMIPSEL64 then true
  else if String.eqb arch rspec.ArchMIPSEL64N32 then true
  else false.

Fixpoint rangeArchitectures (archs : list rspec.Arch_) : list error :=
  match archs with
  | [] => []
  | arch :: rest =>
      (if switchArchitecture arch then [] else [ErrArchitecture arch])
      ++ rangeArchitectures rest
  end.

Definition checkSeccomp (s : rspec.Seccomp) : list error :=
  (if negb (seccompActionValid (rspec.DefaultAction s))
   then [ErrDefaultAction (rspec.DefaultAction s)] else [])
  ++ rangeSyscalls (rspec.Syscalls s)
  ++ rangeArchitectures (rspec.Architectures s).

(** *** checkLinux *)

(** The loop over the namespaces: the errors it appends and the value of
    [utsExists] after it. *)
Fixpoint rangeNamespaces (namespaces : list rspec.Namespace) (utsExists : bool)
    : list error * bool :=
  match namespaces with
  | [] => ([], utsExists)
  | ns :: rest =>
      if negb (namespaceValid ns) then
        let '(errs, utsExists) := rangeNamespaces rest utsExists in
        (ErrNamespace ns :: errs, utsExists)
      else if String.eqb (rspec.Namespace_Type ns) rspec.UTSNamespace then
        rangeNamespaces rest true
      else rangeNamespaces rest utsExists
  end.

Fixpoint rangeDevices (devices : list rspec.Device) : list error :=
  match devices with
  | [] => []
  | d :: rest => (if negb (deviceValid d) then [ErrDevice d] else []) ++ rangeDevices rest
  end.

Definition switchRootfsPropagation (mode : string) : list error :=
  if String.eqb mode "" then []
  else if String.eqb mode "private" then []
  else if String.eqb mode "rprivate" then []
  else if String.eqb mode "slave" then []
  else if String.eqb mode "rslave" then []
  else if String.eqb mode "shared" then []
  else if String.eqb mode "rshared" then []
  else [ErrRootfsPropagation].

Definition checkLinux (spec : rspec.Spec) (rootfs : string) : list error :=
  let linux := rspec.Linux_ spec in
  let utsExists := false in
  let errs :=
    if (5 <? List.length (rspec.UIDMappings linux))%nat then [ErrUIDMappings] else [] in
  let errs := errs ++
    if (5 <? List.length (rspec.GIDMappings linux))%nat then [ErrGIDMappings] else [] in
  let '(nsErrs, utsExists) := rangeNamespaces (rspec.Namespaces linux) utsExists in
  let errs := errs ++ nsErrs in
  let errs := errs ++
    if String.eqb (rspec.OS (rspec.Platform_ spec)) "linux" && negb utsExists
       && negb (String.eqb (rspec.Hostname spec) "")
    then [ErrHostnameUTS] else [] in
  let errs := errs ++ rangeDevices (rspec.Devices linux) in
  let errs := errs ++
    match rspec.Seccomp_ linux with
    | Some seccomp => checkSeccomp seccomp
    | None => []
    end in
  errs ++ switchRootfsPropagation (rspec.RootfsPropagation linux).

(** *** checkProcess *)

Fixpoint rangeEnv (T : unicode.Tables) (envs : list string) : list error :=
  match envs with
  | [] => []
  | env :: rest => (if negb (envValid T env) then [ErrEnv env] else []) ++ rangeEnv T rest
  end.

Fixpoint rangeCapabilities (caps : list string) (capabilities : list string) : list error :=
  match capabilities with
  | [] => []
  | capability :: rest =>
      (if negb (capValid caps capability) then [ErrCapability capability] else [])
      ++ rangeCapabilities caps rest
  end.

Fixpoint rangeRlimits (rlimits : list rspec.Rlimit) : list error :=
  match rlimits with
  | [] => []
  | r :: rest =>
      (if negb (rlimitValid (rspec.Rlimit_Type r)) then [ErrRlimit (rspec.Rlimit_Type r)] else [])
      ++ rangeRlimits rest
  end.

Definition checkProcess (W : Setting) (spec : rspec.Spec) (rootfs : string) : list error :=
  let process := rspec.Process_ spec in
  let errs := if negb (path.IsAbs (rspec.Cwd process)) then [ErrCwd (rspec.Cwd process)] else [] in
  let errs := errs ++ rangeEnv (tables W) (rspec.Env process) in
  let errs := errs ++ rangeCapabilities (defaultCaps W) (rspec.Capabilities process) in
  let errs := errs ++ rangeRlimits (rspec.Rlimits process) in
  errs ++
    if (0 <? String.length (rspec.ApparmorProfile process))%nat then
      let profilePath :=
        path.Join (Clean W) [rootfs; "/etc/apparmor.d"; rspec.ApparmorProfile process] in
      match Stat W profilePath with
      | None => [ErrStat profilePath]
      | Some _ => []
      end
    else [].

(** *** checkEventHooks, checkHooks *)

(** [fi.Mode()]: a method call on the nil [FileInfo] that [os.Stat] returns
    with an error panics. *)
Definition fileMode (fi : option os.FileInfo) : result Z :=
  match fi with
  | Some info => Ok (os.Mode info)
  | None => Panic
  end.

Fixpoint rangeHookEnv (T : unicode.Tables) (path : string) (envs : list string) : list error :=
  match envs with
  | [] => []
  | env :: rest =>
      (if negb (envValid T env) then [ErrHookEnv env path] else []) ++ rangeHookEnv T path rest
  end.

(** [hooksCheck] is the package variable the command sets from its flag. *)
Fixpoint checkEventHooks (W : Setting) (hooksCheck : bool) (hookType : string)
    (hooks : list rspec.Hook) : result (list error) :=
  match hooks with
  | [] => Ok []
  | hook :: rest =>
      let path := rspec.Hook_Path hook in
      let errs := if negb (filepath.IsAbs path) then [ErrHookNotAbsolute hookType path] else [] in
      errs <-
        (if hooksCheck then
           let fi := Stat W path in
           let errs := errs ++
             match fi with
             | None => [ErrHookNotFound hookType path]
             | Some _ => []
             end in
           mode <- fileMode fi ;;
           Ok (errs ++ if (Z.land mode 73 =? 0)%Z then [ErrHookNotExecutable hookType path] else [])
         else Ok errs) ;;
      let errs := errs ++ rangeHookEnv (tables W) path (rspec.Hook_Env hook) in
      more <- checkEventHooks W hooksCheck hookType rest ;;
      Ok (errs ++ more)
  end.

Definition checkHooks (W : Setting) (hooksCheck : bool) (spec : rspec.Spec) (rootfs : string)
    : result (list error) :=
  let hooks := rspec.Hooks_ spec in
  e1 <- checkEventHooks W hooksCheck "pre-start" (rspec.Prestart hooks) ;;
  e2 <- checkEventHooks W hooksCheck "post-start" (rspec.Poststart hooks) ;;
  e3 <- checkEventHooks W hooksCheck "post-stop" (rspec.Poststop hooks) ;;
  Ok (e1 ++ e2 ++ e3).

(** *** isStruct, isStructPtr *)

(** Both take the type of a value; here they take the value. *)
Definition isStruct (v : reflect.Value) : bool :=
  reflect.isStructKind (reflect.kindOf v).

Definition isStructPtr (v : reflect.Value) : bool :=
  match reflect.kindOf v, reflect.elemKind v with
  | reflect.Ptr, Some elem => reflect.isStructKind elem
  | _, _ => false
  end.

(** *** checkMandatoryUnit, checkMandatory *)

Definition omitempty (tagField : reflect.StructField) : bool :=
  strings.Contains (reflect.Get (reflect.Tag tagField) "json") "omitempty".

(** The loops of [checkMandatoryUnit] over the elements of a slice and the
    values of a map: [checkMandatory(mValue.Interface())] for each, when
    [mValue.CanInterface()].  An element can be turned into an interface
    iff the field it was reached through is exported. *)
Definition rangeValues (checkMandatory : reflect.Value -> result (list error))
    (canInterface : bool) : list reflect.Value -> result (list error) :=
  fix loop (values : list reflect.Value) : result (list error) :=
    match values with
    | [] => Ok []
    | mValue :: rest =>
        errs <- (if canInterface then checkMandatory mValue else Ok []) ;;
        more <- loop rest ;;
        Ok (errs ++ more)
    end.

Definition rangeEntries (checkMandatory : reflect.Value -> result (list error))
    (canInterface : bool) : list (reflect.Value * reflect.Value) -> result (list error) :=
  fix loop (entries : list (reflect.Value * reflect.Value)) : result (list error) :=
    match entries with
    | [] => Ok []
    | (_, mValue) :: rest =>
        errs <- (if canInterface then checkMandatory mValue else Ok []) ;;
        more <- loop rest ;;
        Ok (errs ++ more)
    end.

(** [checkMandatoryUnit], with the function it calls on elements. *)
Definition checkMandatoryUnitWith (checkMandatory : reflect.Value -> result (list error))
    (field : reflect.Value) (tagField : reflect.StructField) (parent : string)
    : result (list error) :=
  let mandatory := negb (omitempty tagField) in
  let empty := ErrUnitEmpty parent (reflect.Name tagField) in
  match field with
  | reflect.VNil _ _ | reflect.VPtr _ =>
      Ok (if mandatory && reflect.IsNil field then [empty] else [])
  | reflect.VString _ =>
      Ok (if mandatory && (reflect.Len field =? 0)%nat then [empty] else [])
  | reflect.VSlice elems =>
      if mandatory && (reflect.Len field =? 0)%nat then Ok [empty]
      else rangeValues checkMandatory (reflect.exported tagField) elems
  | reflect.VMap _ entries =>
      if mandatory && (reflect.IsNil field || (reflect.Len field =? 0)%nat) then Ok [empty]
      else rangeEntries checkMandatory (reflect.exported tagField) entries
  | _ => Ok []
  end.

(** The loop of [checkMandatory] over the fields of the struct named
    [name]. *)
Definition rangeFields (checkMandatory : reflect.Value -> result (list error))
    (name : string) : list (reflect.StructField * reflect.Value) -> result (list error) :=
  fix loop (fields : list (reflect.StructField * reflect.Value)) : result (list error) :=
    match fields with
    | [] => Ok []
    | (tagField, field) :: rest =>
        errs <-
          (if isStructPtr field && reflect.IsNil field then
             Ok (if negb (omitempty tagField)
                 then [ErrStructPtrEmpty name (reflect.Name tagField)] else [])
           else if (isStruct field || isStructPtr field) && reflect.exported tagField then
             checkMandatory field
           else checkMandatoryUnitWith checkMandatory field tagField name) ;;
        more <- loop rest ;;
        Ok (errs ++ more)
    end.

(** [checkMandatory v] is the call [checkMandatory(v.Interface())].
    - The interface of a nil value of interface type is nil, [TypeOf] of it
      is nil, and [objT.Kind()] panics.
    - Under a nil pointer to a struct [objV.Elem()] is the zero [Value], and
      [objV.Field(i)] panics as soon as the type has a field. *)
Fixpoint checkMandatory (v : reflect.Value) : result (list error) :=
  match v with
  | reflect.VInterface None => Panic
  | reflect.VInterface (Some dyn) => checkMandatory dyn
  | reflect.VStruct name fields => rangeFields checkMandatory name fields
  | reflect.VPtr (reflect.VStruct name fields) => rangeFields checkMandatory name fields
  | reflect.VNil reflect.Struct numField => if (numField =? 0)%nat then Ok [] else Panic
  | _ => Ok []
  end.

Definition checkMandatoryUnit : reflect.Value -> reflect.StructField -> string
    -> result (list error) :=
  checkMandatoryUnitWith checkMandatory.

Definition checkMandatoryFields (W : Setting) (spec : rspec.Spec) (rootfs : string)
    : result (list error) :=
  checkMandatory (ValueOf W spec).

(** *** The command: the list of checks and the loop over it *)

Definition pure (check : rspec.Spec -> string -> list error) : configCheck :=
  fun spec rootfs => Ok (check spec rootfs).

Definition checks (W : Setting) (hooksCheck : bool) : list configCheck :=
  [ checkMandatoryFields W;
    pure checkSemVer;
    pure checkPlatform;
    pure (checkProcess W);
    pure checkLinux;
    checkHooks W hooksCheck ].

(** The state of the loops: the errors [logrus.Error] has written so far,
    and the variable [ret]. *)
Record Progress : Type := {
  logged : list error;
  ret : Z
}.

(** [for _, err := range errs { logrus.Error(err); ret = 1 }] *)
Fixpoint rangeErrors (errs : list error) (st : Progress) : Progress :=
  match errs with
  | [] => st
  | err :: rest => rangeErrors rest {| logged := logged st ++ [err]; ret := 1 |}
  end.

(** The loop over the checks.  A panic of a check ends it: [Panic] keeps
    the state at that point. *)
Fixpoint rangeChecks (checks : list configCheck) (spec : rspec.Spec) (rootfsPath : string)
    (st : Progress) : Progress * bool :=
  match checks with
  | [] => (st, false)
  | check :: rest =>
      match check spec rootfsPath with
      | Ok errs => rangeChecks rest spec rootfsPath (rangeErrors errs st)
      | Panic => (st, true)
      end
  end.

(** What a run of the command shows: the errors written, whether the line
    "Bundle validation succeeded." was reached and written, the value of
    [ret] when the run ended, whether it ended in a panic, and the status
    the process exits with. *)
Record Outcome : Type := {
  errors : list error;
  succeeded : bool;
  verdict : Z;
  panicked : bool;
  exitStatus : Z
}.

(** The command from the assignment of [hooksCheck] on.  [defer
    os.Exit(ret)] evaluates its argument where the statement stands, and the
    deferred call ends the process when the function returns or panics. *)
Definition bundleValidate (W : Setting) (hooks : bool) (spec : rspec.Spec)
    (rootfsPath : string) : Outcome :=
  let hooksCheck := hooks in
  let ret0 := 0%Z in
  let deferred := ret0 in
  let '(st, panic) := rangeChecks (checks W hooksCheck) spec rootfsPath
                        {| logged := []; ret := ret0 |} in
  {| errors := logged st;
     succeeded := negb panic && (ret st =? 0)%Z;
     verdict := ret st;
     panicked := panic;
     exitStatus := deferred |}.

(** ** Words the specification uses *)

(** A decimal digit, as a byte. *)
Definition isDecimalDigit (c : ascii) : bool :=
  (48 <=? byte c)%Z && (byte c <=? 57)%Z.

(** A string of decimal digits, possibly empty. *)
Fixpoint digits (s : string) : bool :=
  match s with
  | EmptyString => true
  | String c s' => isDecimalDigit c && digits s'
  end.

(** The byte [c] occurs in [s]. *)
Fixpoint occurs (c : ascii) (s : string) : bool :=
  match s with
  | EmptyString => false
  | String a s' => Ascii.eqb a c || occurs c s'
  end.

(** A rune that may stand in the key of an environment entry: a digit, a
    letter or the underscore. *)
Definition keyRune (T : unicode.Tables) (ch : rune) : bool :=
  unicode.IsDigit T ch || unicode.IsLetter T ch || (ch =? 95)%Z.

(** The architectures that have a case in the switch of [checkSeccomp]. *)
Definition recognizedArchitectures : list rspec.Arch_ :=
  [ rspec.ArchX86; rspec.ArchX86_64; rspec.ArchX32; rspec.ArchARM; rspec.ArchAARCH64;
    rspec.ArchMIPS; rspec.ArchMIPS64; rspec.ArchMIPS64N32; rspec.ArchMIPSEL;
    rspec.ArchMIPSEL64; rspec.ArchMIPSEL64N32 ].

(** [checkSeccomp] finds nothing wrong in a profile that declares the one
    architecture [arch] and nothing else. *)
Definition acceptsArchitecture (arch : rspec.Arch_) : bool :=
  match checkSeccomp {| rspec.DefaultAction := ""; rspec.Architectures := [arch];
                        rspec.Syscalls := [] |} with
  | [] => true
  | _ :: _ => false
  end.

(** The rule for devices in the words of the specification: the kind is
    one of b, c, u, p; for u both numbers are strictly positive; for p both
    are zero. *)
Definition deviceRuleAsStated (d : rspec.Device) : Prop :=
  rspec.Device_Type d = "b" \/ rspec.Device_Type d = "c"
  \/ (rspec.Device_Type d = "u" /\ (0 < rspec.Major d)%Z /\ (0 < rspec.Minor d)%Z)
  \/ (rspec.Device_Type d = "p" /\ rspec.Major d = 0%Z /\ rspec.Minor d = 0%Z).

(** ** Words for the proofs *)

(** The empty string, for the positions at the beginning and at the end of
    a text. *)
Definition isEmpty (s : string) : bool :=
  match s with
  | EmptyString => true
  | String _ _ => false
  end.

(** A namespace of type uts. *)
Definition isUTS (ns : rspec.Namespace) : bool :=
  String.eqb (rspec.Namespace_Type ns) rspec.UTSNamespace.

(** The errors of [checkLinux] for the lists of mappings. *)
Definition mappingsErrors (linux : rspec.Linux) : list error :=
  (if (5 <? List.length (rspec.UIDMappings linux))%nat then [ErrUIDMappings] else [])
  ++ (if (5 <? List.length (rspec.GIDMappings linux))%nat then [ErrGIDMappings] else []).

(** The hostname error of [checkLinux], raised iff the platform is linux,
    no namespace is of type uts and the hostname is not empty. *)
Definition hostnameErrors (spec : rspec.Spec) : list error :=
  if String.eqb (rspec.OS (rspec.Platform_ spec)) "linux"
     && negb (existsb isUTS (rspec.Namespaces (rspec.Linux_ spec)))
     && negb (String.eqb (rspec.Hostname spec) "")
  then [ErrHostnameUTS] else [].

(** The errors of [checkLinux] after the hostname error. *)
Definition restErrors (linux : rspec.Linux) : list error :=
  rangeDevices (rspec.Devices linux)
  ++ match rspec.Seccomp_ linux with
     | Some seccomp => checkSeccomp seccomp
     | None => []
     end
  ++ switchRootfsPropagation (rspec.RootfsPropagation linux).

(** The errors of the five checks that run before the hooks checker, given
    those of the walker. *)
Definition beforeHooks (W : Setting) (walker : list error) (spec : rspec.Spec)
    (rootfs : string) : list error :=
  walker ++ checkSemVer spec rootfs ++ checkPlatform spec rootfs
  ++ checkProcess W spec rootfs ++ checkLinux spec rootfs.

(** The value of [ret] after the errors [errs] have been written. *)
Definition retOf (errs : list error) : Z :=
  match errs with
  | [] => 0%Z
  | _ :: _ => 1%Z
  end.

(** [ret] is 0 as long as nothing was written and 1 afterwards. *)
Definition tracks (st : Progress) : Prop := ret st = retOf (logged st).

(** ** Equality of errors *)

Definition Namespace_eq_dec (a b : rspec.Namespace) : {a = b} + {a <> b}.
Proof. decide equality; apply string_dec. Defined.

Definition Device_eq_dec (a b : rspec.Device) : {a = b} + {a <> b}.
Proof. decide equality; (apply string_dec || apply Z.eq_dec). Defined.

Definition Arg_eq_dec (a b : rspec.Arg) : {a = b} + {a <> b}.
Proof. decide equality; (apply string_dec || apply Z.eq_dec). Defined.

Definition Syscall_eq_dec (a b : rspec.Syscall) : {a = b} + {a <> b}.
Proof. decide equality; (apply string_dec || apply (list_eq_dec Arg_eq_dec)). Defined.

Definition error_eq_dec (a b : error) : {a = b} + {a <> b}.
Proof.
  decide equality;
    (apply string_dec || apply Namespace_eq_dec || apply Device_eq_dec
     || apply Syscall_eq_dec).
Defined.

(** ** Documents and settings to run the validator on *)

(** A pipe whose major number is negative. *)
Definition negativePipe : rspec.Device :=
  {| rspec.Device_Path := "/dev/fifo"; rspec.Device_Type := "p";
     rspec.Major := (-1)%Z; rspec.Minor := 0%Z |}.

(** The document [spec] with the list [namespaces] in place of its own. *)
Definition withNamespaces (spec : rspec.Spec) (namespaces : list rspec.Namespace)
    : rspec.Spec :=
  let linux := rspec.Linux_ spec in
  {| rspec.Version := rspec.Version spec;
     rspec.Platform_ := rspec.Platform_ spec;
     rspec.Process_ := rspec.Process_ spec;
     rspec.Hostname := rspec.Hostname spec;
     rspec.Hooks_ := rspec.Hooks_ spec;
     rspec.Linux_ :=
       {| rspec.UIDMappings := rspec.UIDMappings linux;
          rspec.GIDMappings := rspec.GIDMappings linux;
          rspec.Namespaces := namespaces;
          rspec.Devices := rspec.Devices linux;
          rspec.Seccomp_ := rspec.Seccomp_ linux;
          rspec.RootfsPropagation := rspec.RootfsPropagation linux |} |}.

(** A document for linux with the hostname "myhost" and one namespace, of
    type pid. *)
Definition myhostSpec : rspec.Spec :=
  {| rspec.Version := "1.0.0";
     rspec.Platform_ := {| rspec.OS := "linux"; rspec.Arch := "amd64" |};
     rspec.Process_ :=
       {| rspec.Cwd := "/"; rspec.Env := ["PATH=/usr/bin"]; rspec.Capabilities := [];
          rspec.Rlimits := []; rspec.ApparmorProfile := "" |};
     rspec.Hostname := "myhost";
     rspec.Hooks_ := {| rspec.Prestart := []; rspec.Poststart := []; rspec.Poststop := [] |};
     rspec.Linux_ :=
       {| rspec.UIDMappings := []; rspec.GIDMappings := [];
          rspec.Namespaces :=
            [ {| rspec.Namespace_Type := rspec.PIDNamespace; rspec.Namespace_Path := "" |} ];
          rspec.Devices := []; rspec.Seccomp_ := None; rspec.RootfsPropagation := "" |} |}.

(** A setting with nothing in it: no tables beyond Latin-1, no capability,
    paths left as they are, a [Spec] type without fields, an empty file
    system. *)
Definition bareSetting : Setting :=
  {| tables := unicode.noTables;
     defaultCaps := [];
     Clean := fun p => p;
     ValueOf := fun _ => reflect.VStruct "Spec" [];
     Stat := fun _ => None |}.

(** A hook whose file is not on the host. *)
Definition missingHook : rspec.Hook :=
  {| rspec.Hook_Path := "/no/such/hook"; rspec.Hook_Args := []; rspec.Hook_Env := [] |}.

(** [myhostSpec] with a namespace of type uts and [missingHook] as its one
    pre-start hook: a document with nothing for the first five checks to
    report. *)
Definition missingHookSpec : rspec.Spec :=
  {| rspec.Version := "1.0.0";
     rspec.Platform_ := {| rspec.OS := "linux"; rspec.Arch := "amd64" |};
     rspec.Process_ :=
       {| rspec.Cwd := "/"; rspec.Env := ["PATH=/usr/bin"]; rspec.Capabilities := [];
          rspec.Rlimits := []; rspec.ApparmorProfile := "" |};
     rspec.Hostname := "myhost";
     rspec.Hooks_ :=
       {| rspec.Prestart := [missingHook]; rspec.Poststart := []; rspec.Poststop := [] |};
     rspec.Linux_ :=
       {| rspec.UIDMappings := []; rspec.GIDMappings := [];
          rspec.Namespaces :=
            [ {| rspec.Namespace_Type := rspec.UTSNamespace; rspec.Namespace_Path := "" |} ];
          rspec.Devices := []; rspec.Seccomp_ := None; rspec.RootfsPropagation := "" |} |}.

(** ** Words for the further properties *)

(** The file of [hook] is not on the host. *)
Definition hookMissing (W : Setting) (hook : rspec.Hook) : bool :=
  match Stat W (rspec.Hook_Path hook) with
  | None => true
  | Some _ => false
  end.

(** What [checkEventHooks] appends for one hook that does not make it
    panic: the error for a path that is not absolute; with the check on the
    host, the error for a file without a bit of execution; the errors of the
    environment. *)
Definition hookErrors (W : Setting) (hooksCheck : bool) (hookType : string)
    (hook : rspec.Hook) : list error :=
  let path := rspec.Hook_Path hook in
  (if negb (filepath.IsAbs path) then [ErrHookNotAbsolute hookType path] else [])
  ++ (if hooksCheck then
        match Stat W path with
        | Some fi =>
            if (Z.land (os.Mode fi) 73 =? 0)%Z then [ErrHookNotExecutable hookType path] else []
        | None => []
        end
      else [])
  ++ rangeHookEnv (tables W) path (rspec.Hook_Env hook).

(** The hooks of a document, of the three types. *)
Definition allHooks (spec : rspec.Spec) : list rspec.Hook :=
  rspec.Prestart (rspec.Hooks_ spec) ++ rspec.Poststart (rspec.Hooks_ spec)
  ++ rspec.Poststop (rspec.Hooks_ spec).

(** The setting [W] on a host whose [os.Stat] is [stat]. *)
Definition withStat (W : Setting) (stat : string -> option os.FileInfo) : Setting :=
  {| tables := tables W;
     defaultCaps := defaultCaps W;
     Clean := Clean W;
     ValueOf := ValueOf W;
     Stat := stat |}.

(** The error "Cannot find ... hook". *)
Definition isHookNotFound (e : error) : bool :=
  match e with
  | ErrHookNotFound _ _ => true
  | _ => false
  end.

(** The namespace types that have a case in the switch of
    [namespaceValid]. *)
Definition namespaceTypes : list rspec.NamespaceType :=
  [ rspec.PIDNamespace; rspec.NetworkNamespace; rspec.MountNamespace; rspec.IPCNamespace;
    rspec.UTSNamespace; rspec.UserNamespace ].

(** The modes that have a case in the switch of [checkLinux] over
    [RootfsPropagation]. *)
Definition propagationModes : list string :=
  [ ""; "private"; "rprivate"; "slave"; "rslave"; "shared"; "rshared" ].

(** The actions that have a case in the switch of [seccompActionValid]. *)
Definition seccompActions : list rspec.Action :=
  [ ""; rspec.ActKill; rspec.ActTrap; rspec.ActErrno; rspec.ActTrace; rspec.ActAllow ].

(** The operators that have a case in the switch of [syscallValid]. *)
Definition seccompOperators : list rspec.Operator :=
  [ rspec.OpNotEqual; rspec.OpLessEqual; rspec.OpEqualTo; rspec.OpGreaterEqual;
    rspec.OpGreaterThan; rspec.OpMaskedEqual ].

(** The file [checkProcess] looks up for the profile of AppArmor. *)
Definition profilePath (W : Setting) (spec : rspec.Spec) (rootfs : string) : string :=
  path.Join (Clean W) [rootfs; "/etc/apparmor.d"; rspec.ApparmorProfile (rspec.Process_ spec)].

(** Any error but "Cannot find ... hook". *)
Definition otherError (e : error) : Prop := isHookNotFound e = false.

(** One of the two errors of the walker. *)
Definition isEmptyError (e : error) : bool :=
  match e with
  | ErrUnitEmpty _ _ | ErrStructPtrEmpty _ _ => true
  | _ => false
  end.

(** An element that [checkMandatory] cannot take: a nil value of interface
    type, or a nil pointer to a struct type that has a field. *)
Definition nilElement (v : reflect.Value) : bool :=
  match v with
  | reflect.VInterface None => true
  | reflect.VNil reflect.Struct numField => negb (numField =? 0)%nat
  | _ => false
  end.

(** The elements of a slice, the values of a map. *)
Definition elementsOf (field : reflect.Value) : list reflect.Value :=
  match field with
  | reflect.VSlice elems => elems
  | reflect.VMap _ entries => map snd entries
  | _ => []
  end.

(** A field that counts as empty: a nil pointer, an empty string, a slice
    without elements, a map that is nil or without entries. *)
Definition emptyField (field : reflect.Value) : bool :=
  match field with
  | reflect.VNil _ _ => true
  | reflect.VString s => (String.length s =? 0)%nat
  | reflect.VSlice elems => (List.length elems =? 0)%nat
  | reflect.VMap isNil entries => isNil || (List.length entries =? 0)%nat
  | _ => false
  end.

(** The error for the empty field [field] of the struct named [parent]. *)
Definition emptyError (parent : string) (tagField : reflect.StructField)
    (field : reflect.Value) : error :=
  if isStructPtr field then ErrStructPtrEmpty parent (reflect.Name tagField)
  else ErrUnitEmpty parent (reflect.Name tagField).

(** A field of a struct type, with the tag [json:"<name>"]. *)
Definition jsonField (name : string) (exported : bool) : reflect.StructField :=
  {| reflect.Name := name; reflect.Tag := [("json", name)]; reflect.exported := exported |}.

(** Every error of a result that is not a panic satisfies [Q]. *)
Definition reportsOnly (Q : error -> Prop) (r : result (list error)) : Prop :=
  match r with
  | Ok errs => Forall Q errs
  | Panic => True
  end.

(** Induction over a value and the values in it. *)
Section ValueInduction.

Variable P : reflect.Value -> Prop.
Hypothesis HBasic : forall k bits, P (reflect.VBasic k bits).
Hypothesis HOpaque : forall k, P (reflect.VOpaque k).
Hypothesis HInterfaceNil : P (reflect.VInterface None).
Hypothesis HInterface : forall dyn, P dyn -> P (reflect.VInterface (Some dyn)).
Hypothesis HString : forall s, P (reflect.VString s).
Hypothesis HNil : forall elem numField, P (reflect.VNil elem numField).
Hypothesis HPtr : forall target, P target -> P (reflect.VPtr target).
Hypothesis HSlice : forall elems, Forall P elems -> P (reflect.VSlice elems).
Hypothesis HMap : forall isNil entries,
  Forall (fun entry => P (snd entry)) entries -> P (reflect.VMap isNil entries).
Hypothesis HStruct : forall name fields,
  Forall (fun field => P (snd field)) fields -> P (reflect.VStruct name fields).

Fixpoint Value_induction (v : reflect.Value) : P v :=
  match v with
  | reflect.VBasic k bits => HBasic k bits
  | reflect.VOpaque k => HOpaque k
  | reflect.VInterface None => HInterfaceNil
  | reflect.VInterface (Some dyn) => HInterface (Value_induction dyn)
  | reflect.VString s => HString s
  | reflect.VNil elem numField => HNil elem numField
  | reflect.VPtr target => HPtr (Value_induction target)
  | reflect.VSlice elems =>
      HSlice
        ((fix all (l : list reflect.Value) : Forall P l :=
            match l with
            | [] => Forall_nil P
            | x :: rest => Forall_cons x (Value_induction x) (all rest)
            end) elems)
  | reflect.VMap isNil entries =>
      HMap isNil
        ((fix all (l : list (reflect.Value * reflect.Value))
            : Forall (fun entry => P (snd entry)) l :=
            match l with
            | [] => Forall_nil _
            | x :: rest => Forall_cons x (Value_induction (snd x)) (all rest)
            end) entries)
  | reflect.VStruct name fields =>
      HStruct name
        ((fix all (l : list (reflect.StructField * reflect.Value))
            : Forall (fun field => P (snd field)) l :=
            match l with
            | [] => Forall_nil _
            | x :: rest => Forall_cons x (Value_induction (snd x)) (all rest)
            end) fields)
  end.

End ValueInduction.

(** * Properties *)

(** ** Strings *)

Lemma append_nil_r (s : string) : (s ++ "")%string = s.
Proof. induction s as [|c s IH]; simpl; [reflexivity | now rewrite IH]. Qed.

Lemma append_assoc (s1 s2 s3 : string) :
  ((s1 ++ s2) ++ s3 = s1 ++ (s2 ++ s3))%string.
Proof. induction s1 as [|c s1 IH]; simpl; [reflexivity | now rewrite IH]. Qed.

Lemma append_eq_nil (s1 s2 : string) : (s1 ++ s2)%string = "" -> s1 = "" /\ s2 = "".
Proof. destruct s1; simpl; [auto | discriminate]. Qed.

Lemma append_eq_cons (s1 s2 : string) (c : ascii) (w : string) :
  (s1 ++ s2)%string = String c w ->
  (s1 = "" /\ s2 = String c w) \/ (exists s1', s1 = String c s1' /\ w = (s1' ++ s2)%string).
Proof.
  destruct s1 as [|a s1]; simpl; intros H.
  - left; auto.
  - right. injection H as -> <-. now exists s1.
Qed.

Lemma isEmpty_snoc (pre : string) (c : ascii) : isEmpty (pre ++ String c "")%string = false.
Proof. now destruct pre. Qed.

Lemma digits_app (s1 s2 : string) : digits (s1 ++ s2)%string = digits s1 && digits s2.
Proof.
  induction s1 as [|c s1 IH]; simpl; [reflexivity|].
  now rewrite IH, andb_assoc.
Qed.

Lemma byte_range (c : ascii) : (0 <= byte c < 256)%Z.
Proof.
  unfold byte. pose proof (N_ascii_bounded c). lia.
Qed.

Lemma byteAt_cons (c : ascii) (s : string) (i : nat) : byteAt (String c s) (S i) = byteAt s i.
Proof. reflexivity. Qed.

Lemma sliceFrom_cons (c : ascii) (s : string) (i : nat) :
  sliceFrom (String c s) (S i) = sliceFrom s i.
Proof. reflexivity. Qed.

Lemma byteAt_app (s t : string) : forall i,
  (i < String.length s)%nat -> byteAt (s ++ t) i = byteAt s i.
Proof.
  induction s as [|a s IH]; simpl; intros i H; [lia|].
  destruct i as [|i]; [reflexivity|]. rewrite !byteAt_cons. apply IH. lia.
Qed.

Lemma byteAt_app_end (s : string) (c : ascii) (t : string) :
  byteAt (s ++ String c t) (String.length s) = byte c.
Proof. induction s as [|a s IH]; simpl; [reflexivity|]. now rewrite byteAt_cons. Qed.

Lemma string_length_app (s t : string) : String.length (s ++ t) = (String.length s + String.length t)%nat.
Proof. induction s; simpl; congruence. Qed.

Lemma substring_app (s t : string) : forall i n,
  (i + n <= String.length s)%nat -> substring i n (s ++ t) = substring i n s.
Proof.
  induction s as [|a s IH]; simpl; intros i n H.
  - assert (i = 0 /\ n = 0)%nat as [-> ->] by lia. now destruct t.
  - destruct i as [|i].
    + destruct n as [|n]; [reflexivity|]. f_equal. apply IH. simpl. lia.
    + apply IH. lia.
Qed.

Lemma sliceTo_app (s t : string) (i : nat) :
  (i <= String.length s)%nat -> sliceTo (s ++ t) i = sliceTo s i.
Proof. intros H. apply substring_app. simpl. lia. Qed.

Lemma sliceFrom_app (s t : string) : forall i,
  (i <= String.length s)%nat -> sliceFrom (s ++ t) i = (sliceFrom s i ++ t)%string.
Proof.
  unfold sliceFrom. induction s as [|a s IH]; simpl; intros i H.
  - assert (i = 0)%nat as -> by lia. rewrite Nat.sub_0_r.
    induction t as [|b t IHt]; simpl; [reflexivity|]. now rewrite IHt at 1.
  - destruct i as [|i]; simpl.
    + f_equal. specialize (IH 0%nat). rewrite !Nat.sub_0_r in IH. apply IH. lia.
    + apply IH. lia.
Qed.

Lemma sliceFrom_length (s : string) : forall i,
  String.length (sliceFrom s i) = (String.length s - i)%nat.
Proof.
  unfold sliceFrom. induction s as [|a s IH]; intros [|i]; simpl; try reflexivity.
  - f_equal. specialize (IH 0%nat). now rewrite Nat.sub_0_r in IH.
  - apply IH.
Qed.

Lemma sliceTo_all (s : string) : sliceTo s (String.length s) = s.
Proof. unfold sliceTo. induction s as [|a s IH]; simpl; [reflexivity | now rewrite IH]. Qed.

(** ** The loops of [strings] end before their fuel does

    Every turn of [indexFunc] and [lastIndexFunc] passes over a rune of at
    least one byte, so the turns the definitions allow, one for each byte of
    the string, are never used up before the loop ends by itself: more fuel
    changes no result. *)

Section Fuel.

Variables (f : rune -> bool) (truth : bool).

Lemma DecodeRuneInString_size (s : string) :
  (snd (utf8.DecodeRuneInString s) <= 4)%nat
  /\ (s <> "" -> 1 <= snd (utf8.DecodeRuneInString s))%nat.
Proof.
  unfold utf8.DecodeRuneInString.
  destruct s as [|c s]; simpl String.length; cbv zeta.
  - simpl. split; [lia | congruence].
  - replace (S (String.length s) <? 1)%nat with false by reflexivity.
    repeat match goal with
           | |- context [if ?b then _ else _] => destruct b
           end; simpl; split; intros; lia.
Qed.

Lemma sliceFrom_nonempty (s : string) : forall start,
  (start < String.length s)%nat -> sliceFrom s start <> "".
Proof.
  unfold sliceFrom. induction s as [|c s IH]; simpl; intros start H; [lia|].
  destruct start as [|start]; simpl.
  - discriminate.
  - apply IH. lia.
Qed.

Lemma sliceTo_nonempty (s : string) (i : nat) :
  (0 < i)%nat -> (i <= String.length s)%nat -> sliceTo s i <> "".
Proof.
  unfold sliceTo. destruct s as [|c s], i as [|i]; simpl; intros; try lia. discriminate.
Qed.

Lemma indexFuncFrom_fuel (s : string) :
  forall fuel start, (String.length s - start <= fuel)%nat ->
  forall fuel', (fuel <= fuel')%nat ->
  strings.indexFuncFrom fuel' s f truth start = strings.indexFuncFrom fuel s f truth start.
Proof.
  induction fuel as [|fuel IH]; intros start Hs fuel' Hf.
  - destruct fuel'; simpl; [reflexivity|].
    destruct (Nat.ltb_spec start (String.length s)); [lia | reflexivity].
  - destruct fuel' as [|fuel']; [lia|]. simpl.
    destruct (Nat.ltb_spec start (String.length s)) as [Hlt|]; [|reflexivity].
    pose proof (proj2 (@DecodeRuneInString_size (sliceFrom s start))
                  (@sliceFrom_nonempty s start Hlt)) as Hw.
    destruct (utf8.RuneSelf <=? byteAt s start)%Z;
      [destruct (utf8.DecodeRuneInString (sliceFrom s start)) as [r wid]; simpl in Hw|];
      (destruct (Bool.eqb _ truth); [reflexivity | apply IH; lia]).
Qed.

Lemma backToStart_le (s : string) (lim : nat) : forall start i,
  utf8.backToStart s lim start = Some i -> (i <= start)%nat.
Proof.
  induction start as [|p IH]; intros i; simpl.
  - destruct (0 <? lim)%nat; [|destruct (utf8.RuneStart _)]; intros E;
      try discriminate; injection E as <-; lia.
  - destruct (S p <? lim)%nat; [|destruct (utf8.RuneStart _)]; intros E;
      try (injection E as <-; lia).
    apply IH in E. lia.
Qed.

Lemma DecodeLastRuneInString_size (s : string) :
  s <> "" -> (1 <= snd (utf8.DecodeLastRuneInString s) <= 4)%nat.
Proof.
  intros Hs. unfold utf8.DecodeLastRuneInString.
  destruct (Nat.eqb_spec (String.length s) 0) as [E|Hlen].
  - destruct s; [congruence | discriminate].
  - cbv zeta. destruct (byteAt s (String.length s - 1) <? utf8.RuneSelf)%Z; [simpl; lia|].
    set (start := match (String.length s - 1)%nat with
                  | O => O
                  | S p => match utf8.backToStart s (String.length s - utf8.UTFMax) p with
                           | Some i => i
                           | None => O
                           end
                  end).
    assert (Hstart : (start < String.length s)%nat).
    { subst start. destruct (String.length s - 1)%nat as [|p] eqn:E; [lia|].
      destruct (utf8.backToStart _ _ p) as [i|] eqn:Eb; [|lia].
      apply backToStart_le in Eb. lia. }
    pose proof (proj1 (@DecodeRuneInString_size
                         (substring start (String.length s - start) s))) as Hw.
    destruct (utf8.DecodeRuneInString _) as [r size]. simpl in Hw.
    destruct (Nat.eqb_spec (start + size) (String.length s)); simpl; lia.
Qed.

Lemma lastIndexFuncFrom_fuel (s : string) :
  forall fuel i, (i <= fuel)%nat -> (i <= String.length s)%nat ->
  forall fuel', (fuel <= fuel')%nat ->
  strings.lastIndexFuncFrom fuel' s f truth i = strings.lastIndexFuncFrom fuel s f truth i.
Proof.
  induction fuel as [|fuel IH]; intros i Hi Hs fuel' Hf.
  - destruct fuel'; simpl; [reflexivity|].
    destruct (Nat.ltb_spec 0 i); [lia | reflexivity].
  - destruct fuel' as [|fuel']; [lia|]. simpl.
    destruct (Nat.ltb_spec 0 i) as [Hlt|]; [|reflexivity].
    pose proof (@DecodeLastRuneInString_size _ (@sliceTo_nonempty s i Hlt Hs)) as Hw.
    destruct (utf8.DecodeLastRuneInString (sliceTo s i)) as [r size]. simpl in Hw.
    destruct (Bool.eqb _ truth); [reflexivity | apply IH; lia].
Qed.

Lemma indexFunc_fuel (s : string) (extra : nat) :
  strings.indexFuncFrom (String.length s + extra) s f truth 0 = strings.indexFunc s f truth.
Proof. apply indexFuncFrom_fuel; lia. Qed.

Lemma lastIndexFunc_fuel (s : string) (extra : nat) :
  strings.lastIndexFuncFrom (String.length s + extra) s f truth (String.length s) =
  strings.lastIndexFunc s f truth.
Proof. apply lastIndexFuncFrom_fuel; lia. Qed.

End Fuel.

(** ** [strings.TrimFunc] takes white space of one byte off both ends *)

Ltac break_ifs :=
  repeat match goal with
         | |- context [if (?a <? ?b)%Z then _ else _] => destruct (Z.ltb_spec a b)
         | |- context [if (?a <=? ?b)%Z then _ else _] => destruct (Z.leb_spec a b)
         | |- context [if (?a =? ?b)%Z then _ else _] => destruct (Z.eqb_spec a b)
         | |- context [if ?b then _ else _] => destruct b eqn:?
         end.

(** The size of a decoded rune is at most the length of the string. *)
Lemma DecodeRuneInString_within (s : string) :
  (snd (utf8.DecodeRuneInString s) <= String.length s)%nat.
Proof.
  unfold utf8.DecodeRuneInString.
  destruct s as [|a0 [|a1 [|a2 [|a3 s]]]]; simpl String.length; cbv zeta;
    try (simpl; lia).
  all: unfold utf8.first, utf8.as_, utf8.xx, utf8.s1, utf8.s2, utf8.s3, utf8.s4,
         utf8.s5, utf8.s6, utf8.s7.
  all: break_ifs; simpl in *; try lia; try discriminate.
Qed.

Lemma first_cases (b : Z) :
  utf8.first b = utf8.as_ \/ utf8.first b = utf8.xx \/ utf8.first b = utf8.s1
  \/ utf8.first b = utf8.s2 \/ utf8.first b = utf8.s3 \/ utf8.first b = utf8.s4
  \/ utf8.first b = utf8.s5 \/ utf8.first b = utf8.s6 \/ utf8.first b = utf8.s7.
Proof. unfold utf8.first. break_ifs; tauto. Qed.

Ltac break_tests :=
  repeat match goal with
         | |- context [(?a <? ?b)%Z] => destruct (Z.ltb_spec a b)
         end.

(** A byte of ASCII after a string changes nothing in the rune decoded at
    its front. *)
Lemma DecodeRuneInString_app_ascii (u : string) (c : ascii) (t : string) :
  u <> "" -> (byte c < 128)%Z ->
  utf8.DecodeRuneInString (u ++ String c t) = utf8.DecodeRuneInString u.
Proof.
  intros Hu Hc.
  unfold utf8.DecodeRuneInString.
  destruct u as [|a0 [|a1 [|a2 [|a3 u]]]]; [congruence| | | |];
    simpl String.length; simpl append; cbv zeta;
    unfold byteAt; simpl get;
    destruct (first_cases (byte a0)) as [E|[E|[E|[E|[E|[E|[E|[E|E]]]]]]]]; rewrite E;
    try reflexivity;
    unfold utf8.acceptRanges, utf8.locb, utf8.hicb; simpl;
    break_tests; simpl; try reflexivity; try lia;
    repeat match goal with
           | |- context [if ?b then _ else _] => destruct b
           end; reflexivity.
Qed.

Section Trim.

Variables (f : rune -> bool) (c : ascii).
Hypothesis Hc : (byte c < 128)%Z.
Hypothesis Hf : f (byte c) = true.

Lemma indexFuncFrom_cons (truth : bool) (a : ascii) (s : string) : forall fuel start,
  strings.indexFuncFrom fuel (String a s) f truth (S start) =
  option_map S (strings.indexFuncFrom fuel s f truth start).
Proof.
  induction fuel as [|fuel IH]; intros start; simpl; [reflexivity|].
  change (S start <? S (String.length s))%nat with (start <? String.length s)%nat.
  destruct (start <? String.length s)%nat; [|reflexivity].
  rewrite byteAt_cons, sliceFrom_cons.
  destruct (if (utf8.RuneSelf <=? byteAt s start)%Z
            then utf8.DecodeRuneInString (sliceFrom s start)
            else (byteAt s start, 1%nat)) as [r wid].
  destruct (Bool.eqb (f r) truth); [reflexivity|]. apply IH.
Qed.

Lemma TrimLeftFunc_cons_space (s : string) :
  strings.TrimLeftFunc (String c s) f = strings.TrimLeftFunc s f.
Proof.
  unfold strings.TrimLeftFunc, strings.indexFunc. simpl.
  change (byteAt (String c s) 0) with (byte c).
  destruct (Z.leb_spec utf8.RuneSelf (byte c)) as [H|_]; [unfold utf8.RuneSelf in H; lia|].
  rewrite Hf. simpl. rewrite indexFuncFrom_cons.
  destruct (strings.indexFuncFrom (String.length s) s f false 0); reflexivity.
Qed.

(** White space of one byte in front of a string is trimmed. *)
Lemma TrimFunc_cons_space (s : string) :
  strings.TrimFunc (String c s) f = strings.TrimFunc s f.
Proof. unfold strings.TrimFunc. now rewrite TrimLeftFunc_cons_space. Qed.

Lemma indexFuncFrom_lt (truth : bool) (s : string) : forall fuel start i,
  strings.indexFuncFrom fuel s f truth start = Some i -> (i < String.length s)%nat.
Proof.
  induction fuel as [|fuel IH]; intros start i; simpl; [discriminate|].
  destruct (Nat.ltb_spec start (String.length s)); [|discriminate].
  destruct (if (utf8.RuneSelf <=? byteAt s start)%Z
            then utf8.DecodeRuneInString (sliceFrom s start)
            else (byteAt s start, 1%nat)) as [r wid].
  destruct (Bool.eqb (f r) truth); [intros E; injection E as <-; lia | apply IH].
Qed.

Lemma indexFuncFrom_app_space (s : string) : forall fuel start,
  (start <= String.length s)%nat -> (String.length s - start <= fuel)%nat ->
  strings.indexFuncFrom (S fuel) (s ++ String c "") f false start =
  strings.indexFuncFrom fuel s f false start.
Proof.
  assert (Hend : forall fuel,
            strings.indexFuncFrom (S fuel) (s ++ String c "") f false (String.length s) = None).
  { intros fuel. simpl. rewrite string_length_app. simpl.
    destruct (Nat.ltb_spec (String.length s) (String.length s + 1)); [|lia].
    rewrite byteAt_app_end.
    destruct (Z.leb_spec utf8.RuneSelf (byte c)) as [H'|_]; [unfold utf8.RuneSelf in H'; lia|].
    rewrite Hf. simpl. destruct fuel; simpl; [reflexivity|].
    rewrite string_length_app. simpl.
    destruct (Nat.ltb_spec (String.length s + 1) (String.length s + 1)); [lia | reflexivity]. }
  induction fuel as [|fuel IH]; intros start Hle Hfuel.
  - assert (start = String.length s) as -> by lia. apply Hend.
  - destruct (Nat.eq_dec start (String.length s)) as [->|Hne].
    + rewrite Hend. simpl.
      destruct (Nat.ltb_spec (String.length s) (String.length s)); [lia | reflexivity].
    + assert (Hlt : (start < String.length s)%nat) by lia.
      remember (S fuel) as fuel1 eqn:Ef. simpl. subst fuel1.
      rewrite string_length_app. simpl String.length.
      destruct (Nat.ltb_spec start (String.length s + 1)); [|lia].
      rewrite (@byteAt_app s (String c "") start Hlt), (@sliceFrom_app s (String c "") start) by lia.
      rewrite (@DecodeRuneInString_app_ascii (sliceFrom s start) c "" (@sliceFrom_nonempty s start Hlt) Hc).
      cbn [strings.indexFuncFrom].
      destruct (Nat.ltb_spec start (String.length s)); [|lia].
      pose proof (@DecodeRuneInString_within (sliceFrom s start)) as Hw.
      pose proof (proj2 (@DecodeRuneInString_size (sliceFrom s start))
                    (@sliceFrom_nonempty s start Hlt)) as Hw1.
      rewrite sliceFrom_length in Hw.
      destruct (utf8.RuneSelf <=? byteAt s start)%Z;
        [destruct (utf8.DecodeRuneInString (sliceFrom s start)) as [r wid]; simpl in Hw, Hw1|];
        (destruct (Bool.eqb _ false); [reflexivity | apply IH; lia]).
Qed.

Lemma TrimLeftFunc_app_space (s : string) :
  strings.TrimLeftFunc (s ++ String c "") f =
    match strings.indexFunc s f false with
    | None => ""
    | Some _ => (strings.TrimLeftFunc s f ++ String c "")%string
    end.
Proof.
  unfold strings.TrimLeftFunc, strings.indexFunc.
  rewrite string_length_app. simpl String.length. rewrite Nat.add_1_r.
  rewrite (@indexFuncFrom_app_space s (String.length s) 0) by lia.
  destruct (strings.indexFuncFrom (String.length s) s f false 0) as [i|] eqn:E; [|reflexivity].
  apply indexFuncFrom_lt in E. apply sliceFrom_app. lia.
Qed.

Lemma lastIndexFuncFrom_app (truth : bool) (u t : string) : forall fuel i,
  (i <= String.length u)%nat ->
  strings.lastIndexFuncFrom fuel (u ++ t) f truth i = strings.lastIndexFuncFrom fuel u f truth i.
Proof.
  induction fuel as [|fuel IH]; intros i Hi; simpl; [reflexivity|].
  destruct (0 <? i)%nat; [|reflexivity].
  rewrite (@sliceTo_app u t i Hi).
  destruct (utf8.DecodeLastRuneInString (sliceTo u i)) as [r size].
  destruct (Bool.eqb (f r) truth); [reflexivity | apply IH; lia].
Qed.

Lemma lastIndexFuncFrom_lt (truth : bool) (u : string) : forall fuel j i,
  (j <= String.length u)%nat ->
  strings.lastIndexFuncFrom fuel u f truth j = Some i -> (i < j)%nat.
Proof.
  induction fuel as [|fuel IH]; intros j i Hj; simpl; [discriminate|].
  destruct (Nat.ltb_spec 0 j) as [Hlt|]; [|discriminate].
  pose proof (@DecodeLastRuneInString_size _ (@sliceTo_nonempty u j Hlt Hj)) as Hw.
  destruct (utf8.DecodeLastRuneInString (sliceTo u j)) as [r size]. simpl in Hw.
  destruct (Bool.eqb (f r) truth).
  - intros E. injection E as <-. lia.
  - intros E. apply IH in E; lia.
Qed.

Lemma DecodeLastRuneInString_app_space (u : string) :
  utf8.DecodeLastRuneInString (u ++ String c "") = (byte c, 1%nat).
Proof.
  unfold utf8.DecodeLastRuneInString. rewrite string_length_app. simpl String.length.
  destruct (Nat.eqb_spec (String.length u + 1) 0); [lia|]. cbv zeta.
  replace (String.length u + 1 - 1)%nat with (String.length u) by lia.
  rewrite byteAt_app_end.
  destruct (Z.ltb_spec (byte c) utf8.RuneSelf) as [_|H]; [reflexivity|].
  unfold utf8.RuneSelf in H. lia.
Qed.

Lemma TrimRightFunc_app_space (u : string) :
  strings.TrimRightFunc (u ++ String c "") f = strings.TrimRightFunc u f.
Proof.
  unfold strings.TrimRightFunc, strings.lastIndexFunc.
  rewrite string_length_app. simpl String.length. rewrite Nat.add_1_r.
  cbn [strings.lastIndexFuncFrom]. cbn [Nat.ltb Nat.leb].
  replace (S (String.length u)) with (String.length (u ++ String c "")) at 1
    by (rewrite string_length_app; simpl; lia).
  rewrite sliceTo_all, DecodeLastRuneInString_app_space, Hf. simpl Bool.eqb. cbv iota.
  replace (S (String.length u) - 1)%nat with (String.length u) by lia.
  rewrite lastIndexFuncFrom_app by lia.
  destruct (strings.lastIndexFuncFrom (String.length u) u f false (String.length u))
    as [i|] eqn:E; [|apply sliceTo_app; lia].
  apply lastIndexFuncFrom_lt in E; [|lia].
  rewrite (@byteAt_app u (String c "") i E).
  destruct (utf8.RuneSelf <=? byteAt u i)%Z.
  - rewrite (@sliceFrom_app u (String c "") i) by lia.
    rewrite (@DecodeRuneInString_app_ascii (sliceFrom u i) c "" (@sliceFrom_nonempty u i E) Hc).
    pose proof (@DecodeRuneInString_within (sliceFrom u i)) as Hw.
    rewrite sliceFrom_length in Hw.
    destruct (utf8.DecodeRuneInString (sliceFrom u i)) as [r wid]. simpl in Hw.
    apply sliceTo_app. lia.
  - apply sliceTo_app. lia.
Qed.

(** White space of one byte at the end of a string is trimmed. *)
Lemma TrimFunc_app_space (s : string) :
  strings.TrimFunc (s ++ String c "") f = strings.TrimFunc s f.
Proof.
  unfold strings.TrimFunc. rewrite TrimLeftFunc_app_space.
  unfold strings.TrimLeftFunc.
  destruct (strings.indexFunc s f false); [|reflexivity].
  apply TrimRightFunc_app_space.
Qed.

End Trim.

(** ** The matcher of [regexp] against the meaning of expressions *)

Section Matcher.
Import regexp.

Create HintDb re discriminated.
#[local] Hint Constructors matches : re.

Lemma nullable_sound (r : Regexp) : forall pre post,
  nullable (isEmpty pre) (isEmpty post) r = true -> matches r pre "" post.
Proof.
  induction r; simpl; intros pre post H; try discriminate; auto with re.
  - destruct pre; [constructor | discriminate].
  - destruct post; [constructor | discriminate].
  - change "" with ("" ++ "")%string. apply MPlus.
    + now apply IHr.
    + constructor.
  - apply andb_true_iff in H as [H1 H2].
    change "" with ("" ++ "")%string. apply MConcat.
    + now apply IHr1.
    + rewrite append_nil_r. now apply IHr2.
  - apply orb_true_iff in H as [H|H]; auto with re.
Qed.

Lemma nullable_complete (r : Regexp) (pre w post : string) :
  matches r pre w post -> w = "" -> nullable (isEmpty pre) (isEmpty post) r = true.
Proof.
  induction 1; simpl; intros Hw; try discriminate; auto.
  - apply append_eq_nil in Hw as [-> ->]. simpl in *. auto.
  - apply append_eq_nil in Hw as [-> ->].
    rewrite append_nil_r in *. simpl in *.
    rewrite IHmatches1, IHmatches2; auto.
  - rewrite IHmatches; auto.
  - rewrite IHmatches; auto using orb_true_r.
Qed.

Lemma nullable_matches (r : Regexp) (pre post : string) :
  nullable (isEmpty pre) (isEmpty post) r = true <-> matches r pre "" post.
Proof.
  split; [apply nullable_sound | intros H; now apply (nullable_complete H)].
Qed.

Lemma deriv_sound (r : Regexp) : forall c pre w post,
  matches (deriv (isEmpty pre) c r) (pre ++ String c "") w post ->
  matches r pre (String c w) post.
Proof.
  induction r; simpl; intros c0 pre w post H.
  - inversion H.
  - inversion H.
  - destruct (Ascii.eqb_spec c c0) as [->|]; inversion H; subst. constructor.
  - destruct (inClass ranges c0) eqn:E; inversion H; subst. now constructor.
  - inversion H.
  - inversion H.
  - constructor. now apply IHr.
  - inversion H; subst.
    change (String c0 (w1 ++ w2)) with (String c0 w1 ++ w2)%string.
    apply MStarCons; [now apply IHr|].
    simpl. now rewrite append_assoc in *.
  - inversion H; subst.
    change (String c0 (w1 ++ w2)) with (String c0 w1 ++ w2)%string.
    apply MPlus; [now apply IHr|].
    simpl. now rewrite append_assoc in *.
  - apply MQuest. now apply IHr.
  - inversion H; subst.
    + match goal with H' : matches (OpConcat _ _) _ _ _ |- _ => inversion H'; subst end.
      change (String c0 (w1 ++ w2)) with (String c0 w1 ++ w2)%string.
      apply MConcat; [now apply IHr1|].
      simpl. now rewrite append_assoc in *.
    + destruct (nullable (isEmpty pre) false r1) eqn:E;
        [|match goal with H' : matches OpNoMatch _ _ _ |- _ => inversion H' end].
      change (String c0 w) with ("" ++ String c0 w)%string.
      apply MConcat.
      * now apply (nullable_sound r1 pre (String c0 w ++ post)).
      * rewrite append_nil_r. now apply IHr2.
  - inversion H; subst; [apply MAltL | apply MAltR]; auto.
Qed.

Lemma deriv_complete (r : Regexp) (pre w' post : string) :
  matches r pre w' post ->
  forall c w, w' = String c w ->
  matches (deriv (isEmpty pre) c r) (pre ++ String c "") w post.
Proof.
  induction 1; simpl; intros c0 w0 Hw; try discriminate.
  - injection Hw as -> <-. rewrite Ascii.eqb_refl. constructor.
  - injection Hw as -> <-. rewrite H. constructor.
  - now apply IHmatches.
  - apply append_eq_cons in Hw as [[-> ->]|[w1' [-> ->]]].
    + rewrite append_nil_r in IHmatches2. now apply IHmatches2.
    + apply MConcat; [now apply IHmatches1|].
      rewrite append_assoc. exact H0.
  - apply append_eq_cons in Hw as [[-> ->]|[w1' [-> ->]]].
    + rewrite append_nil_r in IHmatches2. now apply (IHmatches2 c0 w0).
    + apply MConcat; [now apply IHmatches1|].
      rewrite append_assoc. exact H0.
  - now apply IHmatches.
  - apply append_eq_cons in Hw as [[-> ->]|[w1' [-> ->]]].
    + apply MAltR.
      pose proof (nullable_complete H eq_refl) as E. simpl in E. rewrite E.
      rewrite append_nil_r in IHmatches2. now apply IHmatches2.
    + apply MAltL. apply MConcat; [now apply IHmatches1|].
      rewrite append_assoc. exact H0.
  - apply MAltL. now apply IHmatches.
  - apply MAltR. now apply IHmatches.
Qed.

Lemma matchPrefix_matches (s : string) : forall r pre,
  matchPrefix (isEmpty pre) r s = true <->
  exists w post, s = (w ++ post)%string /\ matches r pre w post.
Proof.
  induction s as [|c s IH]; intros r pre; simpl.
  - rewrite (nullable_matches r pre ""). split.
    + intros H. now exists "", "".
    + intros (w & post & E & H). symmetry in E.
      apply append_eq_nil in E as [-> ->]. exact H.
  - rewrite orb_true_iff. split.
    + intros [H|H].
      * exists "", (String c s). split; [reflexivity|].
        now apply (nullable_sound r pre (String c s)).
      * rewrite <- (isEmpty_snoc pre c) in H.
        apply IH in H as (w & post & -> & H).
        exists (String c w), post. split; [reflexivity|].
        now apply deriv_sound.
    + intros (w & post & E & H).
      symmetry in E. apply append_eq_cons in E as [[-> ->]|[w' [-> ->]]].
      * left. now apply (nullable_complete H).
      * right. rewrite <- (isEmpty_snoc pre c). apply IH.
        exists w', post. split; [reflexivity|].
        now apply (deriv_complete H).
Qed.

Lemma search_matches (s : string) : forall r pre,
  search (isEmpty pre) r s = true <->
  exists skip w post, s = (skip ++ w ++ post)%string /\ matches r (pre ++ skip) w post.
Proof.
  induction s as [|c s IH]; intros r pre; simpl.
  - rewrite orb_false_r, (nullable_matches r pre ""). split.
    + intros H. exists "", "", "". split; [reflexivity | now rewrite append_nil_r].
    + intros (skip & w & post & E & H). symmetry in E.
      apply append_eq_nil in E as [-> E]. apply append_eq_nil in E as [-> ->].
      now rewrite append_nil_r in H.
  - rewrite orb_true_iff. split.
    + intros [H|H].
      * apply (matchPrefix_matches (String c s) r pre) in H as (w & post & E & H).
        exists "", w, post. rewrite append_nil_r. now split.
      * rewrite <- (isEmpty_snoc pre c) in H.
        apply IH in H as (skip & w & post & -> & H).
        exists (String c skip), w, post. split; [reflexivity|].
        now rewrite append_assoc in H.
    + intros (skip & w & post & E & H).
      destruct skip as [|a skip]; simpl in E.
      * left. apply (matchPrefix_matches (String c s) r pre).
        exists w, post. now rewrite append_nil_r in H.
      * injection E as <- ->. right.
        rewrite <- (isEmpty_snoc pre c). apply IH.
        exists skip, w, post. split; [reflexivity|].
        now rewrite append_assoc.
Qed.

(** [Match] finds exactly the texts that have a piece the expression
    matches. *)
Lemma Match_matches (re : Regexp) (b : string) :
  Match re b = true <->
  exists pre w post, b = (pre ++ w ++ post)%string /\ matches re pre w post.
Proof. apply (search_matches b re ""). Qed.

End Matcher.

(** ** checkSemVer *)

Section SemVer.
Import regexp.

Lemma inClass_digit (c : ascii) : inClass [(48, 57)%Z] c = isDecimalDigit c.
Proof. unfold inClass, isDecimalDigit. simpl. apply orb_false_r. Qed.

Lemma digitClass_inv (pre w post : string) :
  matches digitClass pre w post -> exists c, w = String c "" /\ isDecimalDigit c = true.
Proof.
  intros H. inversion H; subst. exists c. now rewrite <- inClass_digit.
Qed.

Lemma digitClass_intro (c : ascii) (pre post : string) :
  isDecimalDigit c = true -> matches digitClass pre (String c "") post.
Proof. intros H. constructor. now rewrite inClass_digit. Qed.

Lemma star_digits_inv (r : Regexp) (pre w post : string) :
  matches r pre w post -> r = OpStar digitClass -> digits w = true.
Proof.
  induction 1; intros E; try discriminate; [reflexivity|].
  injection E as ->. rewrite digits_app, IHmatches2 by reflexivity.
  apply digitClass_inv in H as (c & -> & Hc). simpl. now rewrite Hc.
Qed.

Lemma star_digits_intro (w : string) : forall pre post,
  digits w = true -> matches (OpStar digitClass) pre w post.
Proof.
  induction w as [|c w IH]; simpl; intros pre post H; [constructor|].
  apply andb_true_iff in H as [Hc Hw].
  change (String c w) with (String c "" ++ w)%string.
  apply MStarCons; [now apply digitClass_intro | now apply IH].
Qed.

Lemma optionalNumber_matches (pre w post : string) :
  matches optionalNumber pre w post <-> digits w = true.
Proof.
  split.
  - intros H. inversion H; subst; [reflexivity|].
    match goal with H' : matches (OpCapture _) _ _ _ |- _ => inversion H'; subst end.
    match goal with H' : matches (OpPlus _) _ _ _ |- _ => inversion H'; subst end.
    rewrite digits_app.
    match goal with H' : matches (OpStar _) _ _ _ |- _ =>
      rewrite (star_digits_inv H' eq_refl) end.
    match goal with H' : matches digitClass _ _ _ |- _ =>
      apply digitClass_inv in H' as (c & -> & Hc) end.
    simpl. now rewrite Hc.
  - intros H. destruct w as [|c w]; [apply MQuestNil|].
    simpl in H. apply andb_true_iff in H as [Hc Hw].
    apply MQuest, MCapture.
    change (String c w) with (String c "" ++ w)%string.
    apply MPlus; [now apply digitClass_intro | now apply star_digits_intro].
Qed.

Ltac invert_concat :=
  match goal with
  | H : matches (OpConcat _ _) _ _ _ |- _ => inversion H; subst; clear H
  | H : matches OpBeginText _ _ _ |- _ => inversion H; subst; clear H
  | H : matches OpEndText _ _ _ |- _ => inversion H; subst; clear H
  | H : matches dot _ _ _ |- _ => inversion H; subst; clear H
  end.

(** The pattern matches a piece of a text iff the piece is the whole text
    and is three runs of digits with a dot after the first and the second. *)
Lemma semVerPattern_matches (b : string) :
  Match semVerPattern b = true <->
  exists major minor patch,
    b = (major ++ "." ++ minor ++ "." ++ patch)%string
    /\ digits major = true /\ digits minor = true /\ digits patch = true.
Proof.
  rewrite Match_matches. split.
  - intros (pre & w & post & -> & H). unfold semVerPattern in H.
    repeat invert_concat.
    repeat match goal with
           | H : matches optionalNumber _ _ _ |- _ => apply optionalNumber_matches in H
           end.
    do 3 eexists.
    split; [simpl; rewrite !append_nil_r; reflexivity | repeat split; assumption].
  - intros (major & minor & patch & -> & H1 & H2 & H3).
    exists "", (major ++ "." ++ minor ++ "." ++ patch)%string, "".
    split; [now rewrite append_nil_r|].
    unfold semVerPattern.
    change (major ++ "." ++ minor ++ "." ++ patch)%string
      with ("" ++ (major ++ "." ++ minor ++ "." ++ patch))%string.
    apply MConcat; [constructor|]. simpl.
    apply MConcat; [now apply optionalNumber_matches|].
    apply (MConcat (r1 := dot) (w1 := ".")); [constructor|].
    apply MConcat; [now apply optionalNumber_matches|].
    apply (MConcat (r1 := dot) (w1 := ".")); [constructor|].
    rewrite <- (append_nil_r patch) at 1.
    apply MConcat; [now apply optionalNumber_matches|].
    constructor.
Qed.

End SemVer.

(** C6.  The version checker returns no error exactly for the versions of
    the shape [major.minor.patch], where each of the three parts is a run of
    decimal digits that may be empty and both dots are there, which is the
    pattern [^(\d+)?\.(\d+)?\.(\d+)?$]; for every other version it returns
    one error that quotes the version.  "1.0.0" and "0.2.0" pass; "1.0",
    "v1.0.0" and "1.0.0-rc1" each give the error. *)
Theorem checkSemVer_pattern :
  (forall spec rootfs,
     checkSemVer spec rootfs = [] <->
     exists major minor patch,
       rspec.Version spec = (major ++ "." ++ minor ++ "." ++ patch)%string
       /\ digits major = true /\ digits minor = true /\ digits patch = true)
  /\ (forall spec rootfs,
        checkSemVer spec rootfs <> [] ->
        checkSemVer spec rootfs = [ErrVersion (rspec.Version spec)])
  /\ (forall spec rootfs,
        In (rspec.Version spec) ["1.0.0"; "0.2.0"] -> checkSemVer spec rootfs = [])
  /\ (forall spec rootfs,
        In (rspec.Version spec) ["1.0"; "v1.0.0"; "1.0.0-rc1"] ->
        checkSemVer spec rootfs = [ErrVersion (rspec.Version spec)]).
Proof.
  split; [|split; [|split]]; intros spec rootfs; unfold checkSemVer.
  - rewrite <- semVerPattern_matches.
    destruct (regexp.Match semVerPattern (rspec.Version spec)); simpl; split; congruence.
  - destruct (regexp.Match semVerPattern (rspec.Version spec)); simpl; congruence.
  - simpl. intros [<-|[<-|[]]]; reflexivity.
  - simpl. intros [E|[E|[E|[]]]]; rewrite <- E; reflexivity.
Qed.

(** ** checkPlatform *)

Section Platform.

Variable p : rspec.Platform.

Lemma rangeArchs_In (archs : list string) (arch : string) :
  rangeArchs archs arch = true <-> In arch archs.
Proof.
  induction archs as [|a archs IH]; simpl.
  - split; [discriminate | tauto].
  - destruct (String.eqb_spec a arch) as [->|Hne].
    + split; auto.
    + rewrite IH. split; [auto | intros [E|H]; [contradiction | exact H]].
Qed.

Lemma rangeCombins_unknown (entries : list (string * list string)) :
  ~ In (rspec.OS p) (map fst entries) ->
  rangeCombins entries p = [ErrOperationSystem (rspec.OS p)].
Proof.
  induction entries as [|[os archs] entries IH]; simpl; intros H; [reflexivity|].
  destruct (String.eqb_spec os (rspec.OS p)) as [E|_]; [tauto|].
  apply IH. tauto.
Qed.

Lemma rangeCombins_found (entries : list (string * list string)) (archs : list string) :
  NoDup (map fst entries) ->
  In (rspec.OS p, archs) entries ->
  rangeCombins entries p =
    if rangeArchs archs (rspec.Arch p) then []
    else [ErrCombination (rspec.OS p) (rspec.Arch p)].
Proof.
  induction entries as [|[os archs'] entries IH]; simpl; intros Hnd Hin; [tauto|].
  inversion Hnd as [|? ? Hnotin Hnd']; subst.
  destruct Hin as [E|Hin].
  - injection E as -> ->. now rewrite String.eqb_refl.
  - destruct (String.eqb_spec os (rspec.OS p)) as [->|_]; [|now apply IH].
    exfalso. apply Hnotin.
    change (rspec.OS p) with (fst (rspec.OS p, archs)). now apply in_map.
Qed.

Lemma validCombins_NoDup : NoDup (map fst validCombins).
Proof.
  simpl. repeat (constructor; [simpl; intuition discriminate|]). constructor.
Qed.

(** The order in which the run visits the entries of the map makes no
    difference. *)
Lemma rangeCombins_order (entries : list (string * list string)) :
  Permutation entries validCombins ->
  rangeCombins entries p = rangeCombins validCombins p.
Proof.
  intros HP.
  assert (Hnd : NoDup (map fst entries)).
  { apply (Permutation_NoDup (l := map fst validCombins)).
    - apply Permutation_map. now apply Permutation_sym.
    - exact validCombins_NoDup. }
  destruct (in_dec string_dec (rspec.OS p) (map fst validCombins)) as [Hin|Hout].
  - apply in_map_iff in Hin as ([os archs] & E & Hin). simpl in E. subst os.
    rewrite (@rangeCombins_found validCombins archs validCombins_NoDup Hin).
    apply (@rangeCombins_found entries archs Hnd).
    apply (Permutation_in _ (Permutation_sym HP) Hin).
  - rewrite (@rangeCombins_unknown validCombins Hout).
    apply rangeCombins_unknown. intros Hin. apply Hout.
    apply (Permutation_in _ (Permutation_map fst HP) Hin).
Qed.

End Platform.

(** C7.  The platform checker returns no error iff the pair of operating
    system and architecture is in the table [validCombins]; for an operating
    system that has no row it returns one error that names the system; for a
    system that has a row without the architecture it returns one error that
    names both.  The row of linux allows 386, amd64, arm, arm64, ppc64,
    ppc64le, mips64 and mips64le.  (linux, amd64) passes, (linux, sparc) is
    a wrong combination, (aix, amd64) is an unknown system.  The order in
    which the loop visits the rows of the table changes nothing. *)
Theorem checkPlatform_allow_list :
  (forall spec rootfs,
     checkPlatform spec rootfs = [] <->
     exists archs,
       In (rspec.OS (rspec.Platform_ spec), archs) validCombins
       /\ In (rspec.Arch (rspec.Platform_ spec)) archs)
  /\ (forall spec rootfs,
        (forall archs, ~ In (rspec.OS (rspec.Platform_ spec), archs) validCombins) ->
        checkPlatform spec rootfs = [ErrOperationSystem (rspec.OS (rspec.Platform_ spec))])
  /\ (forall spec rootfs archs,
        In (rspec.OS (rspec.Platform_ spec), archs) validCombins ->
        ~ In (rspec.Arch (rspec.Platform_ spec)) archs ->
        checkPlatform spec rootfs =
          [ErrCombination (rspec.OS (rspec.Platform_ spec)) (rspec.Arch (rspec.Platform_ spec))])
  /\ In ("linux", ["386"; "amd64"; "arm"; "arm64"; "ppc64"; "ppc64le"; "mips64"; "mips64le"])
        validCombins
  /\ (forall spec rootfs,
        rspec.Platform_ spec = {| rspec.OS := "linux"; rspec.Arch := "amd64" |} ->
        checkPlatform spec rootfs = [])
  /\ (forall spec rootfs,
        rspec.Platform_ spec = {| rspec.OS := "linux"; rspec.Arch := "sparc" |} ->
        checkPlatform spec rootfs = [ErrCombination "linux" "sparc"])
  /\ (forall spec rootfs,
        rspec.Platform_ spec = {| rspec.OS := "aix"; rspec.Arch := "amd64" |} ->
        checkPlatform spec rootfs = [ErrOperationSystem "aix"])
  /\ (forall entries spec rootfs,
        Permutation entries validCombins ->
        rangeCombins entries (rspec.Platform_ spec) = checkPlatform spec rootfs).
Proof.
  split; [|split; [|split; [|split; [|split; [|split; [|split]]]]]].
  - intros spec rootfs. unfold checkPlatform.
    set (p := rspec.Platform_ spec). split.
    + intros H.
      destruct (in_dec string_dec (rspec.OS p) (map fst validCombins)) as [Hin|Hout].
      * apply in_map_iff in Hin as ([os archs] & E & Hin). simpl in E. subst os.
        exists archs. split; [exact Hin|].
        rewrite (@rangeCombins_found p validCombins archs validCombins_NoDup Hin) in H.
        apply rangeArchs_In.
        destruct (rangeArchs archs (rspec.Arch p)); [reflexivity | discriminate].
      * rewrite (@rangeCombins_unknown p validCombins Hout) in H. discriminate.
    + intros (archs & Hin & Harch).
      rewrite (@rangeCombins_found p validCombins archs validCombins_NoDup Hin).
      apply rangeArchs_In in Harch. now rewrite Harch.
  - intros spec rootfs H. unfold checkPlatform.
    apply rangeCombins_unknown. intros Hin.
    apply in_map_iff in Hin as ([os archs] & E & Hin). simpl in E. subst os.
    exact (H archs Hin).
  - intros spec rootfs archs Hin Harch. unfold checkPlatform.
    rewrite (@rangeCombins_found _ validCombins archs validCombins_NoDup Hin).
    destruct (rangeArchs archs _) eqn:E; [|reflexivity].
    apply rangeArchs_In in E. contradiction.
  - simpl. tauto.
  - intros spec rootfs E. unfold checkPlatform. now rewrite E.
  - intros spec rootfs E. unfold checkPlatform. now rewrite E.
  - intros spec rootfs E. unfold checkPlatform. now rewrite E.
  - intros entries spec rootfs HP. unfold checkPlatform. now apply rangeCombins_order.
Qed.

(** ** deviceValid *)

(** C5, as amended.  A device is valid iff its kind is b or c, or its kind
    is u and both numbers are strictly positive, or its kind is p and neither
    number is strictly positive.  Kind u with major 0 is rejected, kind p
    with major 0 and minor 0 is accepted, kind p with major 5 is rejected. *)
Theorem deviceValid_rule :
  (forall d,
     deviceValid d = true <->
     rspec.Device_Type d = "b" \/ rspec.Device_Type d = "c"
     \/ (rspec.Device_Type d = "u" /\ (0 < rspec.Major d)%Z /\ (0 < rspec.Minor d)%Z)
     \/ (rspec.Device_Type d = "p" /\ (rspec.Major d <= 0)%Z /\ (rspec.Minor d <= 0)%Z))
  /\ (forall path minor,
        deviceValid {| rspec.Device_Path := path; rspec.Device_Type := "u";
                       rspec.Major := 0; rspec.Minor := minor |} = false)
  /\ (forall path,
        deviceValid {| rspec.Device_Path := path; rspec.Device_Type := "p";
                       rspec.Major := 0; rspec.Minor := 0 |} = true)
  /\ (forall path minor,
        deviceValid {| rspec.Device_Path := path; rspec.Device_Type := "p";
                       rspec.Major := 5; rspec.Minor := minor |} = false).
Proof.
  split; [|split; [|split]]; try reflexivity.
  intros [path type major minor]. unfold deviceValid. simpl.
  destruct (String.eqb_spec type "b") as [->|Hb]; [tauto|].
  destruct (String.eqb_spec type "c") as [->|Hc]; [tauto|].
  destruct (String.eqb_spec type "u") as [->|Hu].
  - destruct (Z.leb_spec major 0); [|destruct (Z.leb_spec minor 0)];
      (split; [intros Ht; try discriminate Ht | intros Hd];
       intuition (try congruence; lia)).
  - destruct (String.eqb_spec type "p") as [->|Hp].
    + destruct (Z.ltb_spec 0 major); [|destruct (Z.ltb_spec 0 minor)]; simpl;
        (split; [intros Ht; try discriminate Ht | intros Hd];
         intuition (try congruence; lia)).
    + split; [discriminate|]. intuition congruence.
Qed.

(** The rule as the specification states it fails on a pipe with a
    negative number: the code accepts it. *)
Lemma deviceValid_negative_pipe :
  deviceValid negativePipe = true /\ ~ deviceRuleAsStated negativePipe.
Proof.
  split; [reflexivity|].
  unfold deviceRuleAsStated, negativePipe. simpl.
  intros [E|[E|[[E _]|[_ [E _]]]]]; discriminate.
Qed.

(** ** checkSeccomp: the architectures *)

Lemma switchArchitecture_recognized (arch : rspec.Arch_) :
  switchArchitecture arch = true <-> In arch recognizedArchitectures.
Proof.
  unfold switchArchitecture, recognizedArchitectures. simpl.
  repeat match goal with
         | |- context [String.eqb arch ?a] =>
             destruct (String.eqb_spec arch a) as [->|?]; [split; [tauto|reflexivity]|]
         end.
  split; [discriminate|]. intuition congruence.
Qed.

Lemma rangeArchitectures_In (archs : list rspec.Arch_) (e : error) :
  In e (rangeArchitectures archs) <->
  exists arch, e = ErrArchitecture arch /\ In arch archs /\ switchArchitecture arch = false.
Proof.
  induction archs as [|a archs IH]; simpl.
  - split; [tauto | intros (? & _ & [] & _)].
  - rewrite in_app_iff, IH. split.
    + intros [H|(arch & -> & Hin & Hs)].
      * destruct (switchArchitecture a) eqn:E; simpl in H; [tauto|].
        destruct H as [<-|[]]. exists a. auto.
      * exists arch. auto.
    + intros (arch & -> & [->|Hin] & Hs).
      * left. rewrite Hs. simpl. auto.
      * right. exists arch. auto.
Qed.

Lemma rangeSyscalls_In (syscalls : list rspec.Syscall) (e : error) :
  In e (rangeSyscalls syscalls) ->
  exists s, e = ErrSyscall s /\ In s syscalls /\ syscallValid s = false.
Proof.
  induction syscalls as [|s syscalls IH]; simpl; [tauto|].
  rewrite in_app_iff. intros [H|H].
  - destruct (syscallValid s) eqn:E; simpl in H; [tauto|].
    destruct H as [<-|[]]. exists s. auto.
  - destruct (IH H) as (s' & -> & Hin & Hs). exists s'. auto.
Qed.

(** C4, as amended.  The seccomp checker has a case for eleven
    architectures, all different.  It returns the error for an architecture
    iff the profile declares it and it is none of the eleven. *)
Theorem checkSeccomp_architectures :
  List.length recognizedArchitectures = 11
  /\ NoDup recognizedArchitectures
  /\ (forall s arch,
        In (ErrArchitecture arch) (checkSeccomp s) <->
        In arch (rspec.Architectures s) /\ ~ In arch recognizedArchitectures)
  /\ (forall arch, acceptsArchitecture arch = true <-> In arch recognizedArchitectures).
Proof.
  split; [reflexivity|]. split; [|split].
  - unfold recognizedArchitectures.
    repeat (constructor; [simpl; intuition discriminate|]). constructor.
  - intros s arch. unfold checkSeccomp. rewrite !in_app_iff. split.
    + intros [H|[H|H]].
      * destruct (seccompActionValid _); simpl in H; [tauto|].
        destruct H as [E|[]]; discriminate.
      * apply rangeSyscalls_In in H as (? & E & _). discriminate.
      * apply rangeArchitectures_In in H as (a & E & Hin & Hs).
        injection E as <-. split; [exact Hin|].
        rewrite <- switchArchitecture_recognized. now rewrite Hs.
    + intros [Hin Hout]. right; right. apply rangeArchitectures_In.
      exists arch. repeat split; [exact Hin|].
      destruct (switchArchitecture arch) eqn:E; [|reflexivity].
      apply switchArchitecture_recognized in E. contradiction.
  - intros arch. rewrite <- switchArchitecture_recognized.
    unfold acceptsArchitecture, checkSeccomp. simpl.
    destruct (switchArchitecture arch); simpl; split; congruence.
Qed.

(** No set of fourteen identifiers is the set the checker accepts. *)
Lemma checkSeccomp_not_fourteen :
  ~ exists archs : list rspec.Arch_,
      List.length archs = 14 /\ NoDup archs
      /\ forall arch, In arch archs <-> acceptsArchitecture arch = true.
Proof.
  intros (archs & Hlen & Hnd & H).
  assert (Hincl : incl archs recognizedArchitectures).
  { intros arch Hin. apply H in Hin.
    unfold acceptsArchitecture, checkSeccomp in Hin. simpl in Hin.
    apply switchArchitecture_recognized.
    destruct (switchArchitecture arch); [reflexivity | discriminate]. }
  pose proof (NoDup_incl_length Hnd Hincl) as Hle.
  rewrite Hlen in Hle. simpl in Hle. lia.
Qed.

(** ** envValid *)

Section Split.

Variable sep : ascii.

Lemma Split_no_sep (s : string) :
  occurs sep s = false -> strings.Split s sep = [s].
Proof.
  induction s as [|a s IH]; simpl; [reflexivity|].
  intros H. apply orb_false_iff in H as [Ha Hs].
  now rewrite Ha, (IH Hs).
Qed.

Lemma Split_app (key value : string) :
  occurs sep key = false ->
  strings.Split (key ++ String sep value) sep = key :: strings.Split value sep.
Proof.
  induction key as [|a key IH]; simpl.
  - intros _. now rewrite Ascii.eqb_refl.
  - intros H. apply orb_false_iff in H as [Ha Hk].
    now rewrite Ha, (IH Hk).
Qed.

Lemma occurs_first (s : string) :
  occurs sep s = true ->
  exists key value, s = (key ++ String sep value)%string /\ occurs sep key = false.
Proof.
  induction s as [|a s IH]; simpl; [discriminate|].
  destruct (Ascii.eqb_spec a sep) as [->|Hne]; simpl.
  - intros _. now exists "", s.
  - intros H. destruct (IH H) as (key & value & -> & Hk).
    exists (String a key), value. split; [reflexivity|]. simpl.
    apply orb_false_iff. split; [|exact Hk]. now apply Ascii.eqb_neq.
Qed.

Lemma Split_length (s : string) :
  (List.length (strings.Split s sep) <? 2)%nat = negb (occurs sep s).
Proof.
  destruct (occurs sep s) eqn:E.
  - apply occurs_first in E as (key & value & -> & Hk).
    rewrite (@Split_app key value Hk). simpl.
    destruct (strings.Split value sep) eqn:E'; [|reflexivity].
    destruct value; simpl in E'; [discriminate|].
    destruct (Ascii.eqb a sep); [discriminate|].
    destruct (strings.Split value sep); discriminate.
  - now rewrite (@Split_no_sep s E).
Qed.

End Split.

Section Env.

Variable T : unicode.Tables.

Lemma rangeKey_forallb (runes : list rune) :
  rangeKey T runes = forallb (keyRune T) runes.
Proof.
  induction runes as [|ch runes IH]; simpl; [reflexivity|].
  rewrite IH. unfold keyRune.
  destruct (unicode.IsDigit T ch), (unicode.IsLetter T ch), (ch =? 95)%Z; reflexivity.
Qed.

(** An entry with a separator is judged by the key in front of the first
    separator, trimmed. *)
Lemma envValid_key (key value : string) :
  occurs "=" key = false ->
  envValid T (key ++ "=" ++ value) =
    forallb (keyRune T) (utf8.range (strings.TrimSpace T key)).
Proof.
  intros Hk. unfold envValid. simpl.
  rewrite Split_length, (@Split_app "="%char key value Hk). simpl.
  replace (occurs "=" (key ++ String "=" value)) with true.
  - apply rangeKey_forallb.
  - symmetry. clear Hk. induction key as [|a key IH]; simpl.
    + reflexivity.
    + rewrite IH. apply orb_true_r.
Qed.

Lemma envValid_no_sep (env : string) :
  occurs "=" env = false -> envValid T env = false.
Proof. intros H. unfold envValid. now rewrite Split_length, H. Qed.

Lemma rangeEnv_In (envs : list string) (e : error) :
  In e (rangeEnv T envs) <-> exists env, e = ErrEnv env /\ In env envs /\ envValid T env = false.
Proof.
  induction envs as [|a envs IH]; simpl.
  - split; [tauto | intros (? & _ & [] & _)].
  - rewrite in_app_iff, IH. split.
    + intros [H|(env & -> & Hin & Hv)].
      * destruct (envValid T a) eqn:E; simpl in H; [tauto|].
        destruct H as [<-|[]]. exists a. auto.
      * exists env. auto.
    + intros (env & -> & [->|Hin] & Hv).
      * left. rewrite Hv. simpl. auto.
      * right. exists env. auto.
Qed.

Lemma rangeHookEnv_In (path : string) (envs : list string) (e : error) :
  In e (rangeHookEnv T path envs) <->
  exists env, e = ErrHookEnv env path /\ In env envs /\ envValid T env = false.
Proof.
  induction envs as [|a envs IH]; simpl.
  - split; [tauto | intros (? & _ & [] & _)].
  - rewrite in_app_iff, IH. split.
    + intros [H|(env & -> & Hin & Hv)].
      * destruct (envValid T a) eqn:E; simpl in H; [tauto|].
        destruct H as [<-|[]]. exists a. auto.
      * exists env. auto.
    + intros (env & -> & [->|Hin] & Hv).
      * left. rewrite Hv. simpl. auto.
      * right. exists env. auto.
Qed.

(** White space of one byte in front of an entry does not change the
    verdict on it. *)
Lemma envValid_leading_space (c : ascii) (env : string) :
  (byte c < 128)%Z -> unicode.IsSpace T (byte c) = true ->
  envValid T (String c env) = envValid T env.
Proof.
  intros Hc Hs.
  assert (Hne : Ascii.eqb c "=" = false).
  { apply Ascii.eqb_neq. intros ->. discriminate Hs. }
  destruct (occurs "=" env) eqn:E.
  - apply occurs_first in E as (key & value & -> & Hk).
    change (String c (key ++ String "=" value)) with (String c key ++ "=" ++ value)%string.
    rewrite envValid_key by (simpl; now rewrite Hne).
    change (key ++ String "=" value)%string with (key ++ "=" ++ value)%string.
    rewrite (envValid_key key value Hk).
    unfold strings.TrimSpace. now rewrite (@TrimFunc_cons_space _ c Hc Hs).
  - rewrite (envValid_no_sep env E). apply envValid_no_sep. simpl. now rewrite Hne.
Qed.

(** Nor does white space of one byte between the key and the separator. *)
Lemma envValid_trailing_space (c : ascii) (key value : string) :
  (byte c < 128)%Z -> unicode.IsSpace T (byte c) = true ->
  occurs "=" key = false ->
  envValid T (key ++ String c ("=" ++ value)) = envValid T (key ++ "=" ++ value).
Proof.
  intros Hc Hs Hk.
  assert (Hne : Ascii.eqb c "=" = false).
  { apply Ascii.eqb_neq. intros ->. discriminate Hs. }
  change (key ++ String c ("=" ++ value))%string
    with (key ++ (String c "" ++ ("=" ++ value)))%string.
  rewrite <- append_assoc, envValid_key.
  - rewrite (envValid_key key value Hk).
    unfold strings.TrimSpace. now rewrite (@TrimFunc_app_space _ c Hc Hs).
  - induction key as [|a key IH]; simpl in *.
    + now rewrite Hne.
    + apply orb_false_iff in Hk as [Ha Hk]. rewrite Ha. simpl. now apply IH.
Qed.

End Env.

Section Process.

Variable W : Setting.

Lemma rangeCapabilities_In (capabilities : list string) (e : error) :
  In e (rangeCapabilities (defaultCaps W) capabilities) -> exists c, e = ErrCapability c.
Proof.
  induction capabilities as [|a l IH]; simpl; [tauto|].
  rewrite in_app_iff. intros [H|H]; [|auto].
  destruct (capValid (defaultCaps W) a); simpl in H; [tauto|].
  destruct H as [<-|[]]. now exists a.
Qed.

Lemma rangeRlimits_In (rlimits : list rspec.Rlimit) (e : error) :
  In e (rangeRlimits rlimits) -> exists t, e = ErrRlimit t.
Proof.
  induction rlimits as [|a l IH]; simpl; [tauto|].
  rewrite in_app_iff. intros [H|H]; [|auto].
  destruct (rlimitValid _); simpl in H; [tauto|].
  destruct H as [<-|[]]. now eexists.
Qed.

(** The process checker reports exactly the entries [envValid] rejects. *)
Lemma checkProcess_env (spec : rspec.Spec) (rootfs env : string) :
  In (ErrEnv env) (checkProcess W spec rootfs) <->
  In env (rspec.Env (rspec.Process_ spec)) /\ envValid (tables W) env = false.
Proof.
  unfold checkProcess. rewrite !in_app_iff, rangeEnv_In. split.
  - intros [[[[H|H]|H]|H]|H].
    + destruct (path.IsAbs _); simpl in H; [tauto|]. destruct H as [E|[]]; discriminate.
    + destruct H as (env' & E & Hin & Hv). injection E as <-. auto.
    + apply rangeCapabilities_In in H as (? & E). discriminate.
    + apply rangeRlimits_In in H as (? & E). discriminate.
    + destruct (0 <? String.length _)%nat; [|destruct H].
      destruct (Stat W _); simpl in H; [tauto|]. destruct H as [E|[]]; discriminate.
  - intros [Hin Hv]. left; left; left; right. exists env. auto.
Qed.

End Process.

Section HookEnv.

Variables (W : Setting) (hooksCheck : bool) (hookType : string).

(** When the hooks checker returns, it has reported exactly the entries of
    the hooks' environments that [envValid] rejects, each with the path of
    its hook. *)
Lemma checkEventHooks_env (hooks : list rspec.Hook) : forall errs env path,
  checkEventHooks W hooksCheck hookType hooks = Ok errs ->
  (In (ErrHookEnv env path) errs <->
   exists hook, In hook hooks /\ rspec.Hook_Path hook = path
                /\ In env (rspec.Hook_Env hook) /\ envValid (tables W) env = false).
Proof.
  induction hooks as [|hook hooks IH]; intros errs env path H; simpl in H.
  - injection H as <-. split; [intros [] | intros (? & [] & _)].
  - destruct (checkEventHooks W hooksCheck hookType hooks) as [more|] eqn:Emore;
      [|destruct hooksCheck; [destruct (Stat W (rspec.Hook_Path hook))|]; discriminate H].
    specialize (IH more env path eq_refl).
    assert (Hhere : forall front,
              (forall e, In e front -> forall env' path', e <> ErrHookEnv env' path') ->
              (In (ErrHookEnv env path)
                 ((front ++ rangeHookEnv (tables W) (rspec.Hook_Path hook) (rspec.Hook_Env hook))
                  ++ more) <->
               exists h, In h (hook :: hooks) /\ rspec.Hook_Path h = path
                         /\ In env (rspec.Hook_Env h) /\ envValid (tables W) env = false)).
    { intros front Hfront. rewrite !in_app_iff, rangeHookEnv_In, IH. split.
      - intros [[Hin|(env' & E & Hin & Hv)]|(h & Hin & Hp & He & Hv)].
        + now destruct (Hfront _ Hin env path).
        + injection E as E1 E2. subst env' path. exists hook. simpl. auto.
        + exists h. simpl. auto.
      - intros (h & [<-|Hin] & Hp & He & Hv).
        + left; right. exists env. subst path. auto.
        + right. exists h. auto. }
    destruct hooksCheck; [destruct (Stat W (rspec.Hook_Path hook)) as [fi|]|];
      simpl in H; try discriminate H; injection H as <-; apply Hhere;
      intros e Hin env' path' ->;
      repeat (apply in_app_or in Hin as [Hin|Hin]);
      repeat match goal with
             | H : In _ (if ?b then _ else _) |- _ => destruct b; simpl in H
             | H : _ \/ _ |- _ => destruct H
             | H : _ = ErrHookEnv _ _ |- _ => discriminate H
             | H : In _ [] |- _ => destruct H
             | H : False |- _ => destruct H
             end.
Qed.

End HookEnv.

(** C3, as amended.  [envValid] accepts an entry iff it has the form
    KEY=VALUE, where KEY is what stands in front of the first "=", and KEY
    without the white space around it consists only of letters, digits and
    underscores; KEY may be empty.  So "=value" is accepted, as are
    "PATH=/usr/bin" and "KEY_1=value"; "KEY 1=value" is rejected, and so is
    an entry without "=".  The process checker reports the entries of the
    process environment that [envValid] rejects, and the hooks checker, when
    it returns, those of the hooks' environments. *)
Theorem envValid_rule (T : unicode.Tables) :
  (forall env,
     envValid T env = true <->
     exists key value,
       env = (key ++ "=" ++ value)%string
       /\ occurs "=" key = false
       /\ forallb (keyRune T) (utf8.range (strings.TrimSpace T key)) = true)
  /\ envValid T "=value" = true
  /\ envValid T "PATH=/usr/bin" = true
  /\ envValid T "KEY_1=value" = true
  /\ envValid T "KEY 1=value" = false
  /\ (forall W spec rootfs env,
        tables W = T ->
        (In (ErrEnv env) (checkProcess W spec rootfs) <->
         In env (rspec.Env (rspec.Process_ spec)) /\ envValid T env = false))
  /\ (forall W hooksCheck hookType hooks errs env path,
        tables W = T ->
        checkEventHooks W hooksCheck hookType hooks = Ok errs ->
        (In (ErrHookEnv env path) errs <->
         exists hook, In hook hooks /\ rspec.Hook_Path hook = path
                      /\ In env (rspec.Hook_Env hook) /\ envValid T env = false)).
Proof.
  split; [|split; [|split; [|split; [|split; [|split]]]]]; try reflexivity.
  - intros env. split.
    + intros H. destruct (occurs "=" env) eqn:E.
      * apply occurs_first in E as (key & value & -> & Hk).
        exists key, value. split; [reflexivity|]. split; [exact Hk|].
        now rewrite <- (@envValid_key T key value Hk).
      * now rewrite (@envValid_no_sep T env E) in H.
    + intros (key & value & -> & Hk & H). now rewrite (@envValid_key T key value Hk).
  - intros W spec rootfs env <-. apply checkProcess_env.
  - intros W hooksCheck hookType hooks errs env path <- H.
    now apply (checkEventHooks_env W hooksCheck hookType hooks).
Qed.

(** Whatever the tables, "=value", with its empty key, is not rejected. *)
Lemma envValid_empty_key : ~ exists T, envValid T "=value" = false.
Proof. intros (T & H). discriminate H. Qed.

(** C9.  [envValid] checks the runes of the key after [strings.TrimSpace]
    has taken the white space off both its ends: a white-space character of
    one byte in front of the key, or between the key and the "=", changes
    nothing in the verdict.  So " KEY=value" and "KEY =value" are accepted,
    although the keys " KEY" and "KEY " as they stand hold a rune, the
    space, that is no letter, digit or underscore. *)
Theorem envValid_trims_key (T : unicode.Tables) :
  (forall key value,
     occurs "=" key = false ->
     envValid T (key ++ "=" ++ value) =
       forallb (keyRune T) (utf8.range (strings.TrimSpace T key)))
  /\ (forall c env,
        (byte c < 128)%Z -> unicode.IsSpace T (byte c) = true ->
        envValid T (String c env) = envValid T env)
  /\ (forall c key value,
        (byte c < 128)%Z -> unicode.IsSpace T (byte c) = true ->
        occurs "=" key = false ->
        envValid T (key ++ String c ("=" ++ value)) = envValid T (key ++ "=" ++ value))
  /\ strings.TrimSpace T " KEY" = "KEY"
  /\ strings.TrimSpace T "KEY " = "KEY"
  /\ envValid T " KEY=value" = true
  /\ envValid T "KEY =value" = true
  /\ forallb (keyRune T) (utf8.range " KEY") = false
  /\ forallb (keyRune T) (utf8.range "KEY ") = false.
Proof.
  split; [|split; [|split; [|repeat split; reflexivity]]].
  - intros key value Hk. now apply envValid_key.
  - intros c env Hc Hs. now apply envValid_leading_space.
  - intros c key value Hc Hs Hk. now apply envValid_trailing_space.
Qed.

(** ** checkLinux: the hostname and the UTS namespace *)

Lemma isUTS_valid (ns : rspec.Namespace) : isUTS ns = true -> namespaceValid ns = true.
Proof.
  unfold isUTS, namespaceValid. intros H. apply String.eqb_eq in H. now rewrite H.
Qed.

(** The loop over the namespaces raises [utsExists] iff a namespace of
    type uts is in the list. *)
Lemma rangeNamespaces_uts (namespaces : list rspec.Namespace) : forall utsExists,
  snd (rangeNamespaces namespaces utsExists) = utsExists || existsb isUTS namespaces.
Proof.
  induction namespaces as [|ns l IH]; intros u; simpl; [now rewrite orb_false_r|].
  destruct (namespaceValid ns) eqn:Ev; simpl.
  - fold (isUTS ns). destruct (isUTS ns); rewrite IH; simpl.
    + now rewrite orb_true_r.
    + reflexivity.
  - destruct (rangeNamespaces l u) as [errs u'] eqn:E. simpl.
    specialize (IH u). rewrite E in IH. simpl in IH. rewrite IH.
    destruct (isUTS ns) eqn:Eu; [|reflexivity].
    apply isUTS_valid in Eu. congruence.
Qed.

(** The errors of the loop do not depend on [utsExists], and a namespace of
    type uts adds none. *)
Lemma rangeNamespaces_errs (namespaces : list rspec.Namespace) : forall u u',
  fst (rangeNamespaces namespaces u) = fst (rangeNamespaces namespaces u').
Proof.
  induction namespaces as [|ns l IH]; intros u u'; simpl; [reflexivity|].
  destruct (namespaceValid ns); simpl.
  - destruct (String.eqb _ _); apply IH.
  - specialize (IH u u').
    destruct (rangeNamespaces l u), (rangeNamespaces l u'). simpl in *. now rewrite IH.
Qed.

Lemma rangeNamespaces_insert (before after : list rspec.Namespace) (ns : rspec.Namespace) :
  isUTS ns = true -> forall u,
  fst (rangeNamespaces (before ++ ns :: after) u) = fst (rangeNamespaces (before ++ after) u).
Proof.
  intros Hns. induction before as [|a l IH]; intros u; simpl.
  - rewrite (isUTS_valid ns Hns). simpl. fold (isUTS ns). rewrite Hns.
    apply rangeNamespaces_errs.
  - destruct (namespaceValid a); simpl.
    + destruct (String.eqb _ _); apply IH.
    + specialize (IH u).
      destruct (rangeNamespaces (l ++ ns :: after) u), (rangeNamespaces (l ++ after) u).
      simpl in *. now rewrite IH.
Qed.

Lemma rangeNamespaces_In (namespaces : list rspec.Namespace) : forall u e,
  In e (fst (rangeNamespaces namespaces u)) -> exists ns, e = ErrNamespace ns.
Proof.
  induction namespaces as [|ns l IH]; intros u e; simpl; [tauto|].
  destruct (namespaceValid ns); simpl.
  - destruct (String.eqb _ _); apply IH.
  - destruct (rangeNamespaces l u) as [errs u'] eqn:E. simpl.
    intros [<-|H]; [now exists ns|].
    apply (IH u). now rewrite E.
Qed.

Lemma rangeDevices_In (devices : list rspec.Device) (e : error) :
  In e (rangeDevices devices) -> exists d, e = ErrDevice d.
Proof.
  induction devices as [|d l IH]; simpl; [tauto|].
  rewrite in_app_iff. intros [H|H]; [|auto].
  destruct (deviceValid d); simpl in H; [tauto|].
  destruct H as [<-|[]]. now exists d.
Qed.

Lemma checkSeccomp_no_hostname (s : rspec.Seccomp) : ~ In ErrHostnameUTS (checkSeccomp s).
Proof.
  unfold checkSeccomp. rewrite !in_app_iff. intros [H|[H|H]].
  - destruct (seccompActionValid _); simpl in H; [tauto|].
    destruct H as [E|[]]; discriminate.
  - apply rangeSyscalls_In in H as (? & E & _). discriminate.
  - apply rangeArchitectures_In in H as (? & E & _). discriminate.
Qed.

Lemma switchRootfsPropagation_no_hostname (mode : string) :
  ~ In ErrHostnameUTS (switchRootfsPropagation mode).
Proof.
  unfold switchRootfsPropagation.
  repeat (destruct (String.eqb mode _); [simpl; tauto|]).
  simpl. intros [E|[]]. discriminate.
Qed.

Lemma checkLinux_parts (spec : rspec.Spec) (rootfs : string) :
  checkLinux spec rootfs =
    mappingsErrors (rspec.Linux_ spec)
    ++ fst (rangeNamespaces (rspec.Namespaces (rspec.Linux_ spec)) false)
    ++ hostnameErrors spec
    ++ restErrors (rspec.Linux_ spec).
Proof.
  unfold checkLinux, mappingsErrors, hostnameErrors, restErrors.
  pose proof (rangeNamespaces_uts (rspec.Namespaces (rspec.Linux_ spec)) false) as Hu.
  destruct (rangeNamespaces (rspec.Namespaces (rspec.Linux_ spec)) false) as [errs u].
  simpl in Hu. subst u. simpl. now rewrite <- !app_assoc.
Qed.

Lemma mappingsErrors_no_hostname (linux : rspec.Linux) :
  ~ In ErrHostnameUTS (mappingsErrors linux).
Proof.
  unfold mappingsErrors. rewrite in_app_iff.
  destruct (5 <? _)%nat, (5 <? _)%nat; simpl; intuition discriminate.
Qed.

Lemma namespaces_no_hostname (namespaces : list rspec.Namespace) (u : bool) :
  ~ In ErrHostnameUTS (fst (rangeNamespaces namespaces u)).
Proof. intros H. apply rangeNamespaces_In in H as (? & E). discriminate. Qed.

Lemma restErrors_no_hostname (linux : rspec.Linux) : ~ In ErrHostnameUTS (restErrors linux).
Proof.
  unfold restErrors. rewrite !in_app_iff. intros [H|[H|H]].
  - apply rangeDevices_In in H as (? & E). discriminate.
  - destruct (rspec.Seccomp_ linux); [|destruct H].
    now apply checkSeccomp_no_hostname in H.
  - now apply switchRootfsPropagation_no_hostname in H.
Qed.

(** C8.  Take a document for linux with a hostname and no namespace of
    type uts.  The linux checker then returns the hostname error exactly
    once.  With a namespace of type uts put anywhere into the list, it
    returns the same errors in the same order without the hostname error. *)
Theorem checkLinux_hostname_uts (spec : rspec.Spec) (rootfs : string)
    (Hos : rspec.OS (rspec.Platform_ spec) = "linux")
    (Hhost : rspec.Hostname spec <> "")
    (Hno : forall ns, In ns (rspec.Namespaces (rspec.Linux_ spec)) ->
                      rspec.Namespace_Type ns <> rspec.UTSNamespace) :
  count_occ error_eq_dec (checkLinux spec rootfs) ErrHostnameUTS = 1
  /\ forall before after ns,
       rspec.Namespaces (rspec.Linux_ spec) = before ++ after ->
       rspec.Namespace_Type ns = rspec.UTSNamespace ->
       count_occ error_eq_dec
         (checkLinux (withNamespaces spec (before ++ ns :: after)) rootfs) ErrHostnameUTS = 0
       /\ checkLinux (withNamespaces spec (before ++ ns :: after)) rootfs =
            remove error_eq_dec ErrHostnameUTS (checkLinux spec rootfs).
Proof.
  assert (Hnone : existsb isUTS (rspec.Namespaces (rspec.Linux_ spec)) = false).
  { destruct (existsb isUTS _) eqn:E; [|reflexivity].
    apply existsb_exists in E as (ns & Hin & Hu).
    apply String.eqb_eq in Hu. now apply Hno in Hin. }
  assert (Hh : hostnameErrors spec = [ErrHostnameUTS]).
  { unfold hostnameErrors. rewrite Hos, Hnone. simpl.
    destruct (String.eqb_spec (rspec.Hostname spec) ""); [contradiction | reflexivity]. }
  split.
  - rewrite checkLinux_parts, Hh, !count_occ_app.
    rewrite (proj1 (count_occ_not_In error_eq_dec _ _) (@mappingsErrors_no_hostname _)).
    rewrite (proj1 (count_occ_not_In error_eq_dec _ _) (@namespaces_no_hostname _ _)).
    rewrite (proj1 (count_occ_not_In error_eq_dec _ _) (@restErrors_no_hostname _)).
    simpl. destruct (error_eq_dec ErrHostnameUTS ErrHostnameUTS); [reflexivity | contradiction].
  - intros before after ns Hsplit Hns.
    assert (Hu : isUTS ns = true) by (now apply String.eqb_eq).
    assert (Hh' : hostnameErrors (withNamespaces spec (before ++ ns :: after)) = []).
    { unfold hostnameErrors. simpl. rewrite existsb_app. simpl. rewrite Hu.
      now rewrite orb_true_r, andb_false_r. }
    rewrite !checkLinux_parts, Hh, Hh'. simpl rspec.Linux_. simpl rspec.Namespaces.
    rewrite (rangeNamespaces_insert before after ns Hu), <- Hsplit.
    change (restErrors _) with (restErrors (rspec.Linux_ spec)) at 1 2.
    change (mappingsErrors _) with (mappingsErrors (rspec.Linux_ spec)) at 1 2.
    split.
    + rewrite !count_occ_app.
      rewrite (proj1 (count_occ_not_In error_eq_dec _ _) (@mappingsErrors_no_hostname _)).
      rewrite (proj1 (count_occ_not_In error_eq_dec _ _) (@namespaces_no_hostname _ _)).
      rewrite (proj1 (count_occ_not_In error_eq_dec _ _) (@restErrors_no_hostname _)).
      reflexivity.
    + rewrite !remove_app.
      rewrite (notin_remove error_eq_dec _ _ (@mappingsErrors_no_hostname _)).
      rewrite (notin_remove error_eq_dec _ _ (@namespaces_no_hostname _ _)).
      rewrite (notin_remove error_eq_dec _ _ (@restErrors_no_hostname _)).
      simpl. destruct (error_eq_dec ErrHostnameUTS ErrHostnameUTS); [reflexivity | contradiction].
Qed.

(** The theorem at the document [myhostSpec], and at the same document with
    a namespace of type uts put in front. *)
Lemma checkLinux_hostname_uts_myhost :
  count_occ error_eq_dec (checkLinux myhostSpec "/rootfs") ErrHostnameUTS = 1
  /\ forall before after ns,
       rspec.Namespaces (rspec.Linux_ myhostSpec) = before ++ after ->
       rspec.Namespace_Type ns = rspec.UTSNamespace ->
       count_occ error_eq_dec
         (checkLinux (withNamespaces myhostSpec (before ++ ns :: after)) "/rootfs")
         ErrHostnameUTS = 0
       /\ checkLinux (withNamespaces myhostSpec (before ++ ns :: after)) "/rootfs" =
            remove error_eq_dec ErrHostnameUTS (checkLinux myhostSpec "/rootfs").
Proof.
  apply (checkLinux_hostname_uts myhostSpec "/rootfs").
  - reflexivity.
  - discriminate.
  - intros ns [<-|[]]. discriminate.
Defined.

(** ** checkMandatoryUnit, checkMandatory *)

Section Walker.
Import reflect.

(** A field that is neither a pointer, a string, a slice nor a map gets no
    emptiness check. *)
Lemma checkMandatoryUnit_other_kinds (field : Value) (tagField : StructField)
    (parent : string) :
  kindOf field <> Ptr -> kindOf field <> String ->
  kindOf field <> Slice -> kindOf field <> Map ->
  checkMandatoryUnit field tagField parent = Ok [].
Proof.
  unfold checkMandatoryUnit, checkMandatoryUnitWith.
  destruct field; simpl; intros; try reflexivity; contradiction.
Qed.

Lemma rangeFields_skip (rec : Value -> result (list error)) (name : string)
    (tagField : StructField) (k : BasicKind) (bits : Z)
    (before after : list (StructField * Value)) :
  rangeFields rec name (before ++ (tagField, VBasic k bits) :: after) =
  rangeFields rec name (before ++ after).
Proof.
  induction before as [|[tf v] before IH]; simpl.
  - destruct (rangeFields rec name after); reflexivity.
  - now rewrite IH.
Qed.

End Walker.

(** C10.  A field of a boolean or numeric kind is never reported by the
    walker: [checkMandatoryUnit] returns no error for it, whatever its value
    and its tag, and a struct walked with the field gives what it gives
    without it.  More generally [checkMandatoryUnit] looks only at pointers,
    strings, slices and maps. *)
Theorem checkMandatory_skips_basic (field : reflect.Value) (k : reflect.BasicKind)
    (Hkind : reflect.kindOf field = reflect.Basic k) :
  (forall tagField parent, checkMandatoryUnit field tagField parent = Ok [])
  /\ (forall name before after tagField,
        checkMandatory (reflect.VStruct name (before ++ (tagField, field) :: after)) =
        checkMandatory (reflect.VStruct name (before ++ after)))
  /\ (forall other tagField parent,
        reflect.kindOf other <> reflect.Ptr -> reflect.kindOf other <> reflect.String ->
        reflect.kindOf other <> reflect.Slice -> reflect.kindOf other <> reflect.Map ->
        checkMandatoryUnit other tagField parent = Ok []).
Proof.
  destruct field; try discriminate Hkind.
  split; [|split].
  - reflexivity.
  - intros name before after tagField. simpl. apply rangeFields_skip.
  - intros other tagField parent. apply checkMandatoryUnit_other_kinds.
Qed.

(** The theorem at a required [int64] field that is zero. *)
Lemma checkMandatory_skips_basic_int64 :
  (forall tagField parent,
     checkMandatoryUnit (reflect.VBasic reflect.Int64 0) tagField parent = Ok [])
  /\ (forall name before after tagField,
        checkMandatory (reflect.VStruct name
          (before ++ (tagField, reflect.VBasic reflect.Int64 0) :: after)) =
        checkMandatory (reflect.VStruct name (before ++ after)))
  /\ (forall other tagField parent,
        reflect.kindOf other <> reflect.Ptr -> reflect.kindOf other <> reflect.String ->
        reflect.kindOf other <> reflect.Slice -> reflect.kindOf other <> reflect.Map ->
        checkMandatoryUnit other tagField parent = Ok []).
Proof.
  apply (@checkMandatory_skips_basic (reflect.VBasic reflect.Int64 0) reflect.Int64).
  reflexivity.
Defined.

(** ** checkEventHooks, checkHooks *)

Section Hooks.

Variable W : Setting.

(** Without the check on the host the hooks checker cannot panic. *)
Lemma checkEventHooks_off (hookType : string) (hooks : list rspec.Hook) :
  exists errs, checkEventHooks W false hookType hooks = Ok errs.
Proof.
  induction hooks as [|hook hooks [errs IH]]; simpl; [now eexists|].
  rewrite IH. simpl. now eexists.
Qed.

Lemma checkHooks_off (spec : rspec.Spec) (rootfs : string) :
  exists errs, checkHooks W false spec rootfs = Ok errs.
Proof.
  unfold checkHooks.
  destruct (checkEventHooks_off "pre-start" (rspec.Prestart (rspec.Hooks_ spec))) as [e1 ->].
  destruct (checkEventHooks_off "post-start" (rspec.Poststart (rspec.Hooks_ spec))) as [e2 ->].
  destruct (checkEventHooks_off "post-stop" (rspec.Poststop (rspec.Hooks_ spec))) as [e3 ->].
  simpl. now eexists.
Qed.

(** With the check on the host, when every hook is found, it cannot panic
    either. *)
Lemma checkEventHooks_found (hookType : string) (hooks : list rspec.Hook) :
  (forall hook, In hook hooks -> Stat W (rspec.Hook_Path hook) <> None) ->
  exists errs, checkEventHooks W true hookType hooks = Ok errs.
Proof.
  induction hooks as [|hook hooks IH]; simpl; intros H; [now eexists|].
  destruct IH as [errs IH]; [intros h Hh; apply H; now right|].
  rewrite IH.
  destruct (Stat W (rspec.Hook_Path hook)) eqn:E; [|now destruct (H hook (or_introl eq_refl))].
  simpl. now eexists.
Qed.

(** With the check on the host, a hook that is not found makes the loop
    panic: the error is appended, and then [fi.Mode()] is evaluated. *)
Lemma checkEventHooks_panics (hookType : string) (hooks : list rspec.Hook)
    (hook : rspec.Hook) :
  In hook hooks -> Stat W (rspec.Hook_Path hook) = None ->
  checkEventHooks W true hookType hooks = Panic.
Proof.
  intros Hin Hstat. induction hooks as [|h hooks IH]; [destruct Hin|].
  destruct Hin as [->|Hin]; simpl.
  - now rewrite Hstat.
  - rewrite (IH Hin). now destruct (Stat W (rspec.Hook_Path h)).
Qed.

Lemma checkHooks_panics (spec : rspec.Spec) (rootfs : string) (hook : rspec.Hook) :
  In hook (rspec.Prestart (rspec.Hooks_ spec) ++ rspec.Poststart (rspec.Hooks_ spec)
           ++ rspec.Poststop (rspec.Hooks_ spec)) ->
  Stat W (rspec.Hook_Path hook) = None ->
  checkHooks W true spec rootfs = Panic.
Proof.
  intros Hin Hstat. unfold checkHooks.
  rewrite !in_app_iff in Hin. destruct Hin as [Hin|[Hin|Hin]].
  - now rewrite (checkEventHooks_panics "pre-start" _ hook Hin Hstat).
  - destruct (checkEventHooks W true "pre-start" _); [|reflexivity]. simpl.
    now rewrite (checkEventHooks_panics "post-start" _ hook Hin Hstat).
  - destruct (checkEventHooks W true "pre-start" _); [|reflexivity]. simpl.
    destruct (checkEventHooks W true "post-start" _); [|reflexivity]. simpl.
    now rewrite (checkEventHooks_panics "post-stop" _ hook Hin Hstat).
Qed.

End Hooks.

(** C2, as the code has it.  With the check on the host enabled, a hook
    whose path [os.Stat] cannot find makes [checkEventHooks] panic: the error
    is appended and the next statement calls [Mode] on the nil [FileInfo].
    No error list is returned and the hooks after it are not checked, and
    [checkHooks] panics with it, whichever of the three lists the hook is
    in. *)
Theorem checkEventHooks_missing_hook_panics (W : Setting) (hookType : string)
    (hooks : list rspec.Hook) (hook : rspec.Hook)
    (Hin : In hook hooks) (Hstat : Stat W (rspec.Hook_Path hook) = None) :
  checkEventHooks W true hookType hooks = Panic
  /\ forall spec rootfs,
       (rspec.Prestart (rspec.Hooks_ spec) = hooks
        \/ rspec.Poststart (rspec.Hooks_ spec) = hooks
        \/ rspec.Poststop (rspec.Hooks_ spec) = hooks) ->
       checkHooks W true spec rootfs = Panic.
Proof.
  split; [now apply (checkEventHooks_panics W hookType hooks hook)|].
  intros spec rootfs E. apply (checkHooks_panics W spec rootfs hook); [|exact Hstat].
  rewrite !in_app_iff. destruct E as [E|[E|E]]; rewrite E; auto.
Qed.

(** The theorem at [missingHook] on a host without the file. *)
Lemma checkEventHooks_missing_hook_panics_bare :
  checkEventHooks bareSetting true "pre-start" [missingHook] = Panic
  /\ forall spec rootfs,
       (rspec.Prestart (rspec.Hooks_ spec) = [missingHook]
        \/ rspec.Poststart (rspec.Hooks_ spec) = [missingHook]
        \/ rspec.Poststop (rspec.Hooks_ spec) = [missingHook]) ->
       checkHooks bareSetting true spec rootfs = Panic.
Proof.
  apply (@checkEventHooks_missing_hook_panics bareSetting "pre-start" [missingHook] missingHook).
  - simpl. auto.
  - reflexivity.
Defined.

(** ** The command: the loop over the checks *)

Section Pipeline.

Variables (W : Setting) (spec : rspec.Spec) (rootfs : string).

Lemma rangeErrors_logged (errs : list error) : forall st,
  logged (rangeErrors errs st) = logged st ++ errs.
Proof.
  induction errs as [|e errs IH]; intros st; simpl; [now rewrite app_nil_r|].
  rewrite IH. simpl. now rewrite <- app_assoc.
Qed.

Lemma rangeErrors_ret (errs : list error) : forall st,
  ret (rangeErrors errs st) = match errs with [] => ret st | _ :: _ => 1%Z end.
Proof.
  induction errs as [|e errs IH]; intros st; simpl; [reflexivity|].
  rewrite IH. now destruct errs.
Qed.

Lemma rangeErrors_tracks (errs : list error) (st : Progress) :
  tracks st -> tracks (rangeErrors errs st).
Proof.
  unfold tracks. intros H. rewrite rangeErrors_ret, rangeErrors_logged.
  destruct errs as [|e errs]; [now rewrite app_nil_r|].
  now destruct (logged st).
Qed.

(** When every check returns, the loop writes the errors of all of them,
    check after check, and does not panic. *)
Lemma rangeChecks_all (checks : list configCheck) (results : list (list error)) :
  Forall2 (fun check errs => check spec rootfs = Ok errs) checks results ->
  forall st, tracks st ->
  exists st', rangeChecks checks spec rootfs st = (st', false)
              /\ logged st' = logged st ++ concat results /\ tracks st'.
Proof.
  induction 1 as [|check errs checks results Hc _ IH]; intros st Ht; simpl.
  - exists st. now rewrite app_nil_r.
  - rewrite Hc.
    destruct (IH (rangeErrors errs st) (rangeErrors_tracks errs Ht)) as (st' & E & Hl & Ht').
    exists st'. split; [exact E|]. split; [|exact Ht'].
    now rewrite Hl, rangeErrors_logged, app_assoc.
Qed.

(** When a check panics after others have returned, the loop ends there
    with what those have written. *)
Lemma rangeChecks_panic (checks : list configCheck) (results : list (list error))
    (check : configCheck) (rest : list configCheck) :
  Forall2 (fun check errs => check spec rootfs = Ok errs) checks results ->
  check spec rootfs = Panic ->
  forall st, tracks st ->
  exists st', rangeChecks (checks ++ check :: rest) spec rootfs st = (st', true)
              /\ logged st' = logged st ++ concat results /\ tracks st'.
Proof.
  intros H Hp. induction H as [|c errs checks results Hc _ IH]; intros st Ht; simpl.
  - rewrite Hp. exists st. now rewrite app_nil_r.
  - rewrite Hc.
    destruct (IH (rangeErrors errs st) (rangeErrors_tracks errs Ht)) as (st' & E & Hl & Ht').
    exists st'. split; [exact E|]. split; [|exact Ht'].
    now rewrite Hl, rangeErrors_logged, app_assoc.
Qed.

Lemma tracks_initial : tracks {| logged := []; ret := 0 |}.
Proof. reflexivity. Qed.

(** A run in which the walker and the hooks checker return: the errors of
    the six checks are written in the order of the checks, [ret] ends as 0
    iff there is none, and the line of success is written iff there is
    none. *)
Lemma bundleValidate_returns (hooks : bool) (walker hookErrs : list error) :
  checkMandatoryFields W spec rootfs = Ok walker ->
  checkHooks W hooks spec rootfs = Ok hookErrs ->
  bundleValidate W hooks spec rootfs =
    {| errors := beforeHooks W walker spec rootfs ++ hookErrs;
       succeeded := (retOf (beforeHooks W walker spec rootfs ++ hookErrs) =? 0)%Z;
       verdict := retOf (beforeHooks W walker spec rootfs ++ hookErrs);
       panicked := false;
       exitStatus := 0 |}.
Proof.
  intros Hw Hh. unfold bundleValidate.
  destruct (@rangeChecks_all (checks W hooks)
              [walker; checkSemVer spec rootfs; checkPlatform spec rootfs;
               checkProcess W spec rootfs; checkLinux spec rootfs; hookErrs])
    with (st := {| logged := []; ret := 0 |}) as (st' & -> & Hl & Ht).
  - unfold checks. repeat constructor; assumption.
  - exact tracks_initial.
  - unfold tracks in Ht. simpl in Hl. rewrite app_nil_r in Hl.
    rewrite Ht, Hl. unfold beforeHooks. simpl. now rewrite <- !app_assoc.
Qed.

(** Without the check of hooks on the host the run is such a run as soon as
    the walker returns. *)
Lemma bundleValidate_hooks_off (walker : list error) :
  checkMandatoryFields W spec rootfs = Ok walker ->
  exists hookErrs,
    checkHooks W false spec rootfs = Ok hookErrs
    /\ errors (bundleValidate W false spec rootfs) = beforeHooks W walker spec rootfs ++ hookErrs
    /\ panicked (bundleValidate W false spec rootfs) = false
    /\ (verdict (bundleValidate W false spec rootfs) = 0%Z <->
        errors (bundleValidate W false spec rootfs) = []).
Proof.
  intros Hw. destruct (checkHooks_off W spec rootfs) as [hookErrs Hh].
  exists hookErrs. rewrite (bundleValidate_returns false Hw Hh). simpl.
  repeat split; try assumption.
  - destruct (beforeHooks W walker spec rootfs ++ hookErrs); [reflexivity | discriminate].
  - now intros ->.
Qed.

(** The process exits with status 0 whatever the checks found. *)
Lemma bundleValidate_exitStatus (hooks : bool) :
  exitStatus (bundleValidate W hooks spec rootfs) = 0%Z.
Proof.
  unfold bundleValidate. now destruct (rangeChecks _ _ _ _).
Qed.

End Pipeline.

(** C1, as the code has it.  Run the command with the check of hooks on the
    host, on a document with a hook that [os.Stat] cannot find,
    and let the walker return.  The first five checks run in their order and
    their errors are written; then the hooks checker panics.  Nothing of the
    hooks checker is written, not even the error for the hook that was not
    found; the line of success is not written; and the deferred [os.Exit]
    ends the process with status 0. *)
Theorem bundleValidate_missing_hook (W : Setting) (spec : rspec.Spec) (rootfs : string)
    (walker : list error) (hook : rspec.Hook)
    (Hwalker : checkMandatoryFields W spec rootfs = Ok walker)
    (Hin : In hook (rspec.Prestart (rspec.Hooks_ spec) ++ rspec.Poststart (rspec.Hooks_ spec)
                    ++ rspec.Poststop (rspec.Hooks_ spec)))
    (Hstat : Stat W (rspec.Hook_Path hook) = None) :
  bundleValidate W true spec rootfs =
    {| errors := beforeHooks W walker spec rootfs;
       succeeded := false;
       verdict := retOf (beforeHooks W walker spec rootfs);
       panicked := true;
       exitStatus := 0 |}.
Proof.
  destruct (@rangeChecks_panic spec rootfs
              [checkMandatoryFields W; pure checkSemVer; pure checkPlatform;
               pure (checkProcess W); pure checkLinux]
              [walker; checkSemVer spec rootfs; checkPlatform spec rootfs;
               checkProcess W spec rootfs; checkLinux spec rootfs]
              (checkHooks W true) [])
    with (st := {| logged := []; ret := 0 |}) as (st' & E & Hl & Ht).
  - repeat constructor; assumption.
  - now apply (checkHooks_panics W spec rootfs hook).
  - exact tracks_initial.
  - assert (E' : rangeChecks (checks W true) spec rootfs {| logged := []; ret := 0 |}
                 = (st', true)) by exact E.
    unfold bundleValidate. rewrite E'.
    unfold tracks in Ht. simpl in Hl. rewrite app_nil_r in Hl.
    rewrite Ht, Hl. unfold beforeHooks. reflexivity.
Qed.

(** The theorem at [missingHookSpec] on a host without the file: no error
    is written and the process exits with status 0. *)
Lemma bundleValidate_missing_hook_bare :
  bundleValidate bareSetting true missingHookSpec "/rootfs" =
    {| errors := [];
       succeeded := false;
       verdict := 0;
       panicked := true;
       exitStatus := 0 |}.
Proof.
  apply (@bundleValidate_missing_hook bareSetting missingHookSpec "/rootfs" [] missingHook).
  - reflexivity.
  - simpl. auto.
  - reflexivity.
Defined.

(** * Further properties *)

(** ** checkEventHooks, checkHooks: when they return and what *)

Section HooksClosedForm.

Variables (W : Setting) (hooksCheck : bool).

Lemma checkEventHooks_closed_form (hookType : string) (hooks : list rspec.Hook) :
  checkEventHooks W hooksCheck hookType hooks =
    if hooksCheck && existsb (hookMissing W) hooks then Panic
    else Ok (flat_map (hookErrors W hooksCheck hookType) hooks).
Proof.
  induction hooks as [|hook hooks IH]; simpl.
  - now rewrite andb_false_r.
  - rewrite IH. clear IH.
    assert (Hm : hookMissing W hook =
                 match Stat W (rspec.Hook_Path hook) with None => true | Some _ => false end)
      by reflexivity.
    assert (He : hookErrors W hooksCheck hookType hook =
                 (if negb (filepath.IsAbs (rspec.Hook_Path hook))
                  then [ErrHookNotAbsolute hookType (rspec.Hook_Path hook)] else [])
                 ++ (if hooksCheck then
                       match Stat W (rspec.Hook_Path hook) with
                       | Some fi =>
                           if (Z.land (os.Mode fi) 73 =? 0)%Z
                           then [ErrHookNotExecutable hookType (rspec.Hook_Path hook)] else []
                       | None => []
                       end
                     else [])
                 ++ rangeHookEnv (tables W) (rspec.Hook_Path hook) (rspec.Hook_Env hook))
      by reflexivity.
    rewrite Hm, He. clear Hm He.
    destruct hooksCheck; simpl.
    + destruct (Stat W (rspec.Hook_Path hook)) as [fi|]; simpl; [|reflexivity].
      destruct (existsb (hookMissing W) hooks); simpl; [reflexivity|].
      now rewrite <- !app_assoc.
    + reflexivity.
Qed.

End HooksClosedForm.

(** X1.  [checkHooks] panics iff the check on the host is enabled and the
    file of some hook, of any of the three types, is not found.  In every
    other case it returns, for the pre-start hooks, then the post-start
    hooks, then the post-stop hooks, each in its order: the error for a path
    that is not absolute, the error for a file without a bit of execution
    (with the check on the host only), and the errors of the environment. *)
Theorem checkHooks_closed_form (W : Setting) (hooksCheck : bool) (spec : rspec.Spec)
    (rootfs : string) :
  checkHooks W hooksCheck spec rootfs =
    if hooksCheck && existsb (hookMissing W) (allHooks spec) then Panic
    else Ok (flat_map (hookErrors W hooksCheck "pre-start") (rspec.Prestart (rspec.Hooks_ spec))
             ++ flat_map (hookErrors W hooksCheck "post-start")
                  (rspec.Poststart (rspec.Hooks_ spec))
             ++ flat_map (hookErrors W hooksCheck "post-stop")
                  (rspec.Poststop (rspec.Hooks_ spec))).
Proof.
  unfold checkHooks, allHooks. rewrite !checkEventHooks_closed_form, !existsb_app.
  destruct hooksCheck; simpl; [|reflexivity].
  destruct (existsb (hookMissing W) (rspec.Prestart _)); simpl; [reflexivity|].
  destruct (existsb (hookMissing W) (rspec.Poststart _)); simpl; [reflexivity|].
  destruct (existsb (hookMissing W) (rspec.Poststop _)); reflexivity.
Qed.

(** ** checkMandatory: what it reports *)

Lemma bind_Ok (A B : Type) (m : result A) (k : A -> result B) (b : B) :
  bind m k = Ok b -> exists a, m = Ok a /\ k a = Ok b.
Proof. destruct m as [a|]; simpl; [now exists a | discriminate]. Qed.

Section WalkerReports.

(** [Q] holds of the two errors of the walker. *)
Variable Q : error -> Prop.
Hypothesis QUnit : forall parent name, Q (ErrUnitEmpty parent name).
Hypothesis QStructPtr : forall parent name, Q (ErrStructPtrEmpty parent name).

Lemma reportsOnly_append (m1 m2 : result (list error)) :
  reportsOnly Q m1 -> reportsOnly Q m2 ->
  reportsOnly Q (errs <- m1 ;; more <- m2 ;; Ok (errs ++ more)).
Proof.
  destruct m1 as [e1|], m2 as [e2|]; simpl; trivial.
  intros H1 H2. apply Forall_app. now split.
Qed.

Lemma rangeValues_reports (canInterface : bool) (elems : list reflect.Value) :
  Forall (fun v => reportsOnly Q (checkMandatory v)) elems ->
  reportsOnly Q (rangeValues checkMandatory canInterface elems).
Proof.
  induction 1 as [|v elems Hv _ IH]; [constructor|].
  change (reportsOnly Q (errs <- (if canInterface then checkMandatory v else Ok []) ;;
                         more <- rangeValues checkMandatory canInterface elems ;;
                         Ok (errs ++ more))).
  apply reportsOnly_append; [|exact IH].
  destruct canInterface; [exact Hv | constructor].
Qed.

Lemma rangeEntries_reports (canInterface : bool)
    (entries : list (reflect.Value * reflect.Value)) :
  Forall (fun entry => reportsOnly Q (checkMandatory (snd entry))) entries ->
  reportsOnly Q (rangeEntries checkMandatory canInterface entries).
Proof.
  induction 1 as [|[key v] entries Hv _ IH]; [constructor|].
  change (reportsOnly Q (errs <- (if canInterface then checkMandatory v else Ok []) ;;
                         more <- rangeEntries checkMandatory canInterface entries ;;
                         Ok (errs ++ more))).
  apply reportsOnly_append; [|exact IH].
  destruct canInterface; [exact Hv | constructor].
Qed.

Lemma walker_reports (v : reflect.Value) :
  reportsOnly Q (checkMandatory v)
  /\ forall tagField parent, reportsOnly Q (checkMandatoryUnit v tagField parent).
Proof.
  induction v as [k bits|k| |dyn IH|s|elem numField|target IH|elems IH|isNil entries IH
                  |name fields IH] using Value_induction.
  - split; [constructor | intros; constructor].
  - split; [constructor | intros; constructor].
  - split; [exact I | intros; constructor].
  - split; [exact (proj1 IH) | intros; constructor].
  - split; [constructor|]. intros tagField parent. simpl.
    destruct (negb (omitempty tagField) && _); repeat constructor. apply QUnit.
  - split.
    + destruct elem; try constructor. simpl. destruct (numField =? 0)%nat; constructor.
    + intros tagField parent. simpl.
      destruct (negb (omitempty tagField) && _); repeat constructor. apply QUnit.
  - split.
    + destruct target; try constructor. exact (proj1 IH).
    + intros tagField parent. simpl.
      destruct (negb (omitempty tagField) && _); repeat constructor. apply QUnit.
  - split; [constructor|]. intros tagField parent.
    unfold checkMandatoryUnit, checkMandatoryUnitWith.
    destruct (negb (omitempty tagField) && _).
    + repeat constructor. apply QUnit.
    + apply rangeValues_reports. revert IH. apply Forall_impl. intros v H. exact (proj1 H).
  - split; [constructor|]. intros tagField parent.
    unfold checkMandatoryUnit, checkMandatoryUnitWith.
    destruct (negb (omitempty tagField) && _).
    + repeat constructor. apply QUnit.
    + apply rangeEntries_reports. revert IH. apply Forall_impl. intros v H. exact (proj1 H).
  - split; [|intros; constructor].
    change (reportsOnly Q (rangeFields checkMandatory name fields)).
    induction IH as [|[tagField field] fields [Hobj Hunit] _ IH]; [constructor|].
    change (reportsOnly Q
              (errs <- (if isStructPtr field && reflect.IsNil field then
                          Ok (if negb (omitempty tagField)
                              then [ErrStructPtrEmpty name (reflect.Name tagField)] else [])
                        else if (isStruct field || isStructPtr field)
                                && reflect.exported tagField then
                          checkMandatory field
                        else checkMandatoryUnit field tagField name) ;;
               more <- rangeFields checkMandatory name fields ;;
               Ok (errs ++ more))).
    apply reportsOnly_append; [|exact IH].
    destruct (isStructPtr field && reflect.IsNil field).
    + destruct (negb (omitempty tagField)); repeat constructor. apply QStructPtr.
    + destruct ((isStruct field || isStructPtr field) && reflect.exported tagField).
      * exact Hobj.
      * apply Hunit.
Qed.

End WalkerReports.

(** X2.  Whatever value the walker is run on, when it returns, every error
    it returns is one of its two errors, "'parent.name' should not be
    empty" with or without the full stop. *)
Theorem checkMandatory_reports_emptiness (v : reflect.Value) :
  reportsOnly (fun e => isEmptyError e = true) (checkMandatory v).
Proof.
  apply (@walker_reports (fun e => isEmptyError e = true)); reflexivity.
Qed.

(** ** checkMandatory: the fields of a struct, one after the other *)

Section WalkerFields.

Variables (rec : reflect.Value -> result (list error)) (name : string).

Lemma rangeFields_app (fs1 fs2 : list (reflect.StructField * reflect.Value)) :
  rangeFields rec name (fs1 ++ fs2) =
    (e1 <- rangeFields rec name fs1 ;; e2 <- rangeFields rec name fs2 ;; Ok (e1 ++ e2)).
Proof.
  induction fs1 as [|[tagField field] fs1 IH].
  - simpl. destruct (rangeFields rec name fs2); reflexivity.
  - simpl. rewrite IH. clear IH.
    match goal with
    | |- context [bind ?m _] => destruct m as [e|]; [|reflexivity]
    end.
    simpl.
    destruct (rangeFields rec name fs1) as [e1|]; [|reflexivity]. simpl.
    destruct (rangeFields rec name fs2) as [e2|]; [|reflexivity]. simpl.
    now rewrite app_assoc.
Qed.

(** A field on which the loop panics makes the loop panic, wherever it
    stands. *)
Lemma rangeFields_panics (before after : list (reflect.StructField * reflect.Value))
    (tagField : reflect.StructField) (field : reflect.Value) :
  rangeFields rec name [(tagField, field)] = Panic ->
  rangeFields rec name (before ++ (tagField, field) :: after) = Panic.
Proof.
  intros H.
  change ((tagField, field) :: after) with ([(tagField, field)] ++ after).
  rewrite rangeFields_app, rangeFields_app, H.
  now destruct (rangeFields rec name before).
Qed.

End WalkerFields.

(** X3.  The walk of a struct is the walk of its first fields followed by
    the walk of the others: the errors come in the order of the fields, and
    a panic in the first part keeps the second from being walked.  The same
    holds under a pointer to the struct. *)
Theorem checkMandatory_fields_compose (name : string)
    (fs1 fs2 : list (reflect.StructField * reflect.Value)) :
  checkMandatory (reflect.VStruct name (fs1 ++ fs2)) =
    (e1 <- checkMandatory (reflect.VStruct name fs1) ;;
     e2 <- checkMandatory (reflect.VStruct name fs2) ;;
     Ok (e1 ++ e2))
  /\ checkMandatory (reflect.VPtr (reflect.VStruct name (fs1 ++ fs2))) =
       (e1 <- checkMandatory (reflect.VPtr (reflect.VStruct name fs1)) ;;
        e2 <- checkMandatory (reflect.VPtr (reflect.VStruct name fs2)) ;;
        Ok (e1 ++ e2)).
Proof.
  split; apply rangeFields_app.
Qed.

(** ** checkMandatory: nil elements, fields that are not exported *)

Lemma nilElement_panics (v : reflect.Value) :
  nilElement v = true -> checkMandatory v = Panic.
Proof.
  destruct v as [| |[dyn|]| |elem numField| | | |]; try discriminate; [reflexivity|].
  destruct elem; try discriminate. simpl.
  now destruct (numField =? 0)%nat.
Qed.

Lemma rangeValues_panics (elems : list reflect.Value) :
  existsb nilElement elems = true -> rangeValues checkMandatory true elems = Panic.
Proof.
  induction elems as [|v elems IH]; [discriminate|].
  intros H. apply orb_true_iff in H.
  change (rangeValues checkMandatory true (v :: elems))
    with (errs <- checkMandatory v ;;
          more <- rangeValues checkMandatory true elems ;; Ok (errs ++ more)).
  destruct H as [H|H].
  - now rewrite (nilElement_panics v H).
  - rewrite (IH H). now destruct (checkMandatory v).
Qed.

Lemma rangeEntries_panics (entries : list (reflect.Value * reflect.Value)) :
  existsb nilElement (map snd entries) = true ->
  rangeEntries checkMandatory true entries = Panic.
Proof.
  induction entries as [|[key v] entries IH]; [discriminate|].
  intros H. apply orb_true_iff in H.
  change (rangeEntries checkMandatory true ((key, v) :: entries))
    with (errs <- checkMandatory v ;;
          more <- rangeEntries checkMandatory true entries ;; Ok (errs ++ more)).
  destruct H as [H|H].
  - now rewrite (nilElement_panics v H).
  - rewrite (IH H). now destruct (checkMandatory v).
Qed.

(** X4.  A nil element makes the walker panic.  Let a struct have an
    exported field that is a slice, or a map that is not nil, and let one of
    its elements be a nil value of interface type or a nil pointer to a struct
    type with a field.  Then the walk of the struct panics, whatever its other
    fields are and whether the field is tagged omitempty or not. *)
Theorem checkMandatory_nil_element_panics (name : string)
    (before after : list (reflect.StructField * reflect.Value))
    (tagField : reflect.StructField) (field : reflect.Value)
    (Hexported : reflect.exported tagField = true)
    (Hnil : reflect.IsNil field = false)
    (Helem : existsb nilElement (elementsOf field) = true) :
  checkMandatory (reflect.VStruct name (before ++ (tagField, field) :: after)) = Panic.
Proof.
  apply (@rangeFields_panics checkMandatory name before after tagField field).
  destruct field as [| | | | | |elems|isNil entries|]; try discriminate; simpl in *.
  - rewrite Hexported, (rangeValues_panics elems Helem).
    destruct elems; [discriminate|]. simpl. now rewrite andb_false_r.
  - rewrite Hexported, (rangeEntries_panics entries Helem). subst isNil.
    destruct entries; [discriminate|]. simpl. now rewrite andb_false_r.
Qed.

(** The theorem at a struct whose one field is a slice holding one nil
    pointer to a struct type with one field. *)
Lemma checkMandatory_nil_element_panics_slice :
  checkMandatory
    (reflect.VStruct "Spec"
       [(jsonField "mounts" true, reflect.VSlice [reflect.VNil reflect.Struct 1])]) = Panic.
Proof.
  apply (@checkMandatory_nil_element_panics "Spec" [] [] (jsonField "mounts" true)
           (reflect.VSlice [reflect.VNil reflect.Struct 1])); reflexivity.
Defined.

(** X5.  A field that is not exported is never looked into.  The walk of a
    struct with such a field returns; it reports the field iff the tag of the
    field lacks "omitempty" and the field is empty (a nil pointer, an empty
    string, a slice without elements, a map that is nil or without entries);
    and nothing under the field is walked: no error from it, no panic on a
    nil element. *)
Theorem checkMandatory_unexported_field (name : string) (tagField : reflect.StructField)
    (field : reflect.Value) (Hunexported : reflect.exported tagField = false) :
  checkMandatory (reflect.VStruct name [(tagField, field)]) =
    Ok (if negb (omitempty tagField) && emptyField field
        then [emptyError name tagField field] else []).
Proof.
  unfold emptyError. simpl. rewrite Hunexported, andb_false_r.
  destruct field as [| | |s|elem numField|target|elems|isNil entries|]; simpl;
    try (rewrite ?andb_false_r; reflexivity).
  - now rewrite app_nil_r.
  - destruct elem; simpl; rewrite ?andb_true_r;
      destruct (negb (omitempty tagField)); reflexivity.
  - rewrite Hunexported.
    destruct (negb (omitempty tagField) && (List.length elems =? 0)%nat); [reflexivity|].
    assert (E : rangeValues checkMandatory false elems = Ok []).
    { induction elems as [|v elems IH]; [reflexivity|]. simpl in *. now rewrite IH. }
    now rewrite E.
  - rewrite Hunexported.
    destruct (negb (omitempty tagField) && (isNil || (List.length entries =? 0)%nat));
      [reflexivity|].
    assert (E : rangeEntries checkMandatory false entries = Ok []).
    { induction entries as [|[key v] entries IH]; [reflexivity|]. simpl in *. now rewrite IH. }
    now rewrite E.
Qed.

(** The theorem at a field that is not exported and holds a nil element:
    nothing is reported and the walk does not panic. *)
Lemma checkMandatory_unexported_field_nil_element :
  checkMandatory
    (reflect.VStruct "Spec"
       [(jsonField "mounts" false, reflect.VSlice [reflect.VNil reflect.Struct 1])]) = Ok [].
Proof.
  apply (@checkMandatory_unexported_field "Spec" (jsonField "mounts" false)
           (reflect.VSlice [reflect.VNil reflect.Struct 1])).
  reflexivity.
Defined.

(** ** The command: what a run writes *)

(** The loop over the checks writes only what the checks return. *)
Lemma rangeChecks_reports (Q : error -> Prop) (spec : rspec.Spec) (rootfs : string)
    (checks : list configCheck) :
  Forall (fun check : configCheck => reportsOnly Q (check spec rootfs)) checks ->
  forall st, Forall Q (logged st) ->
  Forall Q (logged (fst (rangeChecks checks spec rootfs st))).
Proof.
  induction 1 as [|check checks Hc _ IH]; intros st Hst; simpl; [exact Hst|].
  destruct (check spec rootfs) as [errs|]; [|exact Hst].
  apply IH. rewrite rangeErrors_logged. apply Forall_app. now split.
Qed.

Ltac each_error :=
  repeat match goal with
         | |- Forall _ (_ ++ _) => apply Forall_app; split
         | |- Forall _ (if ?b then _ else _) => destruct b
         | |- Forall _ (match ?x with _ => _ end) => destruct x
         | |- Forall _ [] => constructor
         | |- Forall _ (_ :: _) => constructor; [reflexivity|]
         | H : Forall _ ?l |- Forall _ ?l => exact H
         end.

Lemma rangeCombins_found_hooks (entries : list (string * list string))
    (platform : rspec.Platform) : Forall otherError (rangeCombins entries platform).
Proof. induction entries as [|[os archs] entries IH]; simpl; each_error. Qed.

Lemma rangeEnv_found_hooks (T : unicode.Tables) (envs : list string) :
  Forall otherError (rangeEnv T envs).
Proof. induction envs as [|env envs IH]; simpl; each_error. Qed.

Lemma rangeCapabilities_found_hooks (caps capabilities : list string) :
  Forall otherError (rangeCapabilities caps capabilities).
Proof. induction capabilities as [|c capabilities IH]; simpl; each_error. Qed.

Lemma rangeRlimits_found_hooks (rlimits : list rspec.Rlimit) :
  Forall otherError (rangeRlimits rlimits).
Proof. induction rlimits as [|r rlimits IH]; simpl; each_error. Qed.

Lemma rangeNamespaces_found_hooks (namespaces : list rspec.Namespace) : forall u,
  Forall otherError (fst (rangeNamespaces namespaces u)).
Proof.
  induction namespaces as [|ns namespaces IH]; intros u; simpl; [constructor|].
  destruct (negb (namespaceValid ns)).
  - specialize (IH u). destruct (rangeNamespaces namespaces u). simpl in *.
    constructor; [reflexivity | exact IH].
  - destruct (String.eqb _ _); apply IH.
Qed.

Lemma rangeDevices_found_hooks (devices : list rspec.Device) :
  Forall otherError (rangeDevices devices).
Proof. induction devices as [|d devices IH]; simpl; each_error. Qed.

Lemma rangeSyscalls_found_hooks (syscalls : list rspec.Syscall) :
  Forall otherError (rangeSyscalls syscalls).
Proof. induction syscalls as [|s syscalls IH]; simpl; each_error. Qed.

Lemma rangeArchitectures_found_hooks (archs : list rspec.Arch_) :
  Forall otherError (rangeArchitectures archs).
Proof. induction archs as [|arch archs IH]; simpl; each_error. Qed.

Lemma rangeHookEnv_found_hooks (T : unicode.Tables) (path : string) (envs : list string) :
  Forall otherError (rangeHookEnv T path envs).
Proof. induction envs as [|env envs IH]; simpl; each_error. Qed.

Lemma checkLinux_found_hooks (spec : rspec.Spec) (rootfs : string) :
  Forall otherError (checkLinux spec rootfs).
Proof.
  rewrite checkLinux_parts.
  apply Forall_app. split; [unfold mappingsErrors; each_error|].
  apply Forall_app. split; [apply rangeNamespaces_found_hooks|].
  apply Forall_app. split; [unfold hostnameErrors; each_error|].
  unfold restErrors.
  apply Forall_app. split; [apply rangeDevices_found_hooks|].
  apply Forall_app. split.
  - destruct (rspec.Seccomp_ (rspec.Linux_ spec)) as [s|]; [|constructor].
    unfold checkSeccomp.
    apply Forall_app. split; [each_error|].
    apply Forall_app. split;
      [apply rangeSyscalls_found_hooks | apply rangeArchitectures_found_hooks].
  - unfold switchRootfsPropagation. each_error.
Qed.

Lemma checkProcess_found_hooks (W : Setting) (spec : rspec.Spec) (rootfs : string) :
  Forall otherError (checkProcess W spec rootfs).
Proof.
  unfold checkProcess.
  repeat (apply Forall_app; split);
    try apply rangeEnv_found_hooks; try apply rangeCapabilities_found_hooks;
    try apply rangeRlimits_found_hooks; each_error.
Qed.

Lemma checkHooks_found_hooks (W : Setting) (hooksCheck : bool) (spec : rspec.Spec)
    (rootfs : string) : reportsOnly otherError (checkHooks W hooksCheck spec rootfs).
Proof.
  assert (H : forall hookType hooks,
             Forall otherError (flat_map (hookErrors W hooksCheck hookType) hooks)).
  { intros hookType hooks. induction hooks as [|hook hooks IH]; simpl; [constructor|].
    apply Forall_app. split; [|exact IH].
    unfold hookErrors.
    apply Forall_app. split; [each_error|].
    apply Forall_app. split; [each_error | apply rangeHookEnv_found_hooks]. }
  unfold checkHooks. rewrite !checkEventHooks_closed_form.
  repeat (destruct (hooksCheck && _); simpl; [exact I|]).
  repeat (apply Forall_app; split); apply H.
Qed.

Lemma checks_found_hooks (W : Setting) (hooksCheck : bool) (spec : rspec.Spec)
    (rootfs : string) :
  Forall (fun check : configCheck => reportsOnly otherError (check spec rootfs)) (checks W hooksCheck).
Proof.
  unfold checks, pure. repeat constructor.
  - apply (@walker_reports otherError); reflexivity.
  - unfold checkSemVer. simpl. each_error.
  - apply rangeCombins_found_hooks.
  - apply checkProcess_found_hooks.
  - apply checkLinux_found_hooks.
  - apply checkHooks_found_hooks.
Qed.


(** X6.  No run of the command writes the error "Cannot find ... hook".
    The one statement that appends it is followed by the call of [Mode] on
    the nil [FileInfo], so that the list it was appended to is never
    returned; and no other check has this error. *)
Theorem bundleValidate_never_not_found (W : Setting) (hooks : bool) (spec : rspec.Spec)
    (rootfs : string) (hookType path : string) :
  ~ In (ErrHookNotFound hookType path) (errors (bundleValidate W hooks spec rootfs)).
Proof.
  intros Hin.
  assert (H : Forall otherError (errors (bundleValidate W hooks spec rootfs))).
  { unfold bundleValidate.
    pose proof (@rangeChecks_reports otherError spec rootfs (checks W hooks)
                  (checks_found_hooks W hooks spec rootfs)
                  {| logged := []; ret := 0 |} (Forall_nil _)) as H.
    destruct (rangeChecks (checks W hooks) spec rootfs {| logged := []; ret := 0 |})
      as [st panic].
    exact H. }
  rewrite Forall_forall in H. specialize (H _ Hin). discriminate H.
Qed.

(** X7.  Every run of the command is one of three.  The walker panics:
    nothing is written and no other check runs.  The walker returns and
    the hooks checker panics: the errors of the walker and of the checks of
    the version, the platform, the process and linux are written, in this
    order, and nothing of the hooks.  Both return: the errors of the six
    checks are written in the order of the checks, and the line of success
    is written iff there is none.  In each of them [ret] is 1 iff an error
    was written, and the process exits with status 0. *)
Theorem bundleValidate_cases (W : Setting) (hooks : bool) (spec : rspec.Spec)
    (rootfs : string) :
  bundleValidate W hooks spec rootfs =
    match checkMandatoryFields W spec rootfs with
    | Panic =>
        {| errors := []; succeeded := false; verdict := 0; panicked := true;
           exitStatus := 0 |}
    | Ok walker =>
        let written := beforeHooks W walker spec rootfs in
        match checkHooks W hooks spec rootfs with
        | Panic =>
            {| errors := written; succeeded := false; verdict := retOf written;
               panicked := true; exitStatus := 0 |}
        | Ok hookErrs =>
            {| errors := written ++ hookErrs;
               succeeded := (retOf (written ++ hookErrs) =? 0)%Z;
               verdict := retOf (written ++ hookErrs);
               panicked := false; exitStatus := 0 |}
        end
    end.
Proof.
  destruct (checkMandatoryFields W spec rootfs) as [walker|] eqn:Hw.
  - cbv zeta. destruct (checkHooks W hooks spec rootfs) as [hookErrs|] eqn:Hh.
    + apply (@bundleValidate_returns W spec rootfs hooks walker hookErrs Hw Hh).
    + destruct (@rangeChecks_panic spec rootfs
                  [checkMandatoryFields W; pure checkSemVer; pure checkPlatform;
                   pure (checkProcess W); pure checkLinux]
                  [walker; checkSemVer spec rootfs; checkPlatform spec rootfs;
                   checkProcess W spec rootfs; checkLinux spec rootfs]
                  (checkHooks W hooks) [])
        with (st := {| logged := []; ret := 0 |}) as (st' & E & Hl & Ht).
      * repeat constructor; assumption.
      * exact Hh.
      * exact tracks_initial.
      * assert (E' : rangeChecks (checks W hooks) spec rootfs {| logged := []; ret := 0 |}
                     = (st', true)) by exact E.
        unfold bundleValidate. rewrite E'.
        unfold tracks in Ht. simpl in Hl. rewrite app_nil_r in Hl.
        rewrite Ht, Hl. unfold beforeHooks. reflexivity.
  - unfold bundleValidate, checks. simpl. now rewrite Hw.
Qed.

(** X8.  Without the flag for the check of hooks on the host, the hooks
    checker returns and its result does not depend on the file system: it is
    the same on a host with any other [os.Stat]. *)
Theorem checkHooks_without_host (W : Setting) (stat : string -> option os.FileInfo)
    (spec : rspec.Spec) (rootfs : string) :
  checkHooks W false spec rootfs <> Panic
  /\ checkHooks (withStat W stat) false spec rootfs = checkHooks W false spec rootfs.
Proof.
  unfold checkHooks. rewrite !checkEventHooks_closed_form. simpl.
  split; [discriminate|]. reflexivity.
Qed.

(** ** The loops that report the items a test rejects *)

Section Loops.

Variables (A : Type) (invalid : A -> bool) (err : A -> error) (loop : list A -> list error).
Hypothesis loop_nil : loop [] = [].
Hypothesis loop_cons : forall x rest,
  loop (x :: rest) = (if invalid x then [err x] else []) ++ loop rest.

Lemma loop_filter (items : list A) : loop items = map err (filter invalid items).
Proof.
  induction items as [|x items IH]; [exact loop_nil|].
  rewrite loop_cons, IH. simpl. now destruct (invalid x).
Qed.

Lemma loop_In (items : list A) (e : error) :
  In e (loop items) <-> exists x, e = err x /\ In x items /\ invalid x = true.
Proof.
  rewrite loop_filter, in_map_iff. split.
  - intros (x & <- & H). apply filter_In in H. exists x. tauto.
  - intros (x & -> & H). exists x. split; [reflexivity|]. now apply filter_In.
Qed.

End Loops.

Lemma rangeNames_In (names : list string) (name : string) :
  rangeNames names name = true <-> In name names.
Proof.
  induction names as [|val names IH]; simpl; [split; [discriminate|tauto]|].
  destruct (String.eqb_spec val name) as [->|Hne].
  - split; auto.
  - rewrite IH. split; [auto|]. intros [H|H]; [contradiction | exact H].
Qed.

Lemma rangeNames_not_In (names : list string) (name : string) :
  negb (rangeNames names name) = true <-> ~ In name names.
Proof.
  rewrite negb_true_iff, <- rangeNames_In. now destruct (rangeNames names name).
Qed.

Ltac switch_cases x :=
  simpl;
  repeat match goal with
         | |- context [String.eqb x ?a] =>
             destruct (String.eqb_spec x a) as [->|?]; [split; [tauto|reflexivity]|]
         end;
  split; [discriminate|]; intuition congruence.

Lemma namespaceValid_types (ns : rspec.Namespace) :
  namespaceValid ns = true <-> In (rspec.Namespace_Type ns) namespaceTypes.
Proof.
  unfold namespaceValid, namespaceTypes. switch_cases (rspec.Namespace_Type ns).
Qed.

Lemma seccompActionValid_actions (secc : rspec.Action) :
  seccompActionValid secc = true <-> In secc seccompActions.
Proof. unfold seccompActionValid, seccompActions. switch_cases secc. Qed.

Lemma opValid_operators (op : rspec.Operator) :
  opValid op = true <-> In op seccompOperators.
Proof. unfold opValid, seccompOperators. switch_cases op. Qed.

Lemma switchRootfsPropagation_modes (mode : string) :
  switchRootfsPropagation mode = [] <-> In mode propagationModes.
Proof.
  unfold switchRootfsPropagation, propagationModes. simpl.
  repeat match goal with
         | |- context [String.eqb mode ?a] =>
             destruct (String.eqb_spec mode a) as [->|?]; [split; [tauto|reflexivity]|]
         end.
  split; [discriminate|]. intuition congruence.
Qed.

Lemma rangeArgs_Forall (args : list rspec.Arg) :
  rangeArgs args = true <-> Forall (fun arg => opValid (rspec.Op arg) = true) args.
Proof.
  induction args as [|arg args IH]; simpl; [split; [constructor|reflexivity]|].
  destruct (opValid (rspec.Op arg)) eqn:E.
  - rewrite IH. split; [now constructor|]. intros H. now inversion H.
  - split; [discriminate|]. intros H. inversion H. congruence.
Qed.

Lemma not_true_false (b : bool) : negb b = true <-> b = false.
Proof. now destruct b. Qed.

(** ** syscallValid, checkSeccomp: each error and its cause *)

(** X9.  A rule for a system call is valid iff its action is empty or one
    of the five actions kill, trap, errno, trace and allow, and the operator
    of each of its arguments is one of the six operators NE, LE, EQ, GE, GT
    and MASKED_EQ.  Nothing else of the rule is looked at: neither its name
    nor the index and the values of an argument. *)
Theorem syscallValid_rule (s : rspec.Syscall) :
  syscallValid s = true <->
  In (rspec.Syscall_Action s) seccompActions
  /\ forall arg, In arg (rspec.Args s) -> In (rspec.Op arg) seccompOperators.
Proof.
  unfold syscallValid. rewrite <- seccompActionValid_actions.
  destruct (seccompActionValid (rspec.Syscall_Action s)); simpl.
  - rewrite rangeArgs_Forall, Forall_forall. split.
    + intros H. split; [reflexivity|]. intros arg Hin. apply opValid_operators. now apply H.
    + intros [_ H] arg Hin. apply opValid_operators. now apply H.
  - split; [discriminate|]. intros [H _]. discriminate H.
Qed.

(** X10.  The operator [rspec.OpLessThan], "SCMP_CMP_LT", has no case in the
    switch of [syscallValid]: a rule with an argument compared by it is
    rejected, whatever its action and its other arguments are. *)
Theorem syscallValid_less_than (s : rspec.Syscall) (arg : rspec.Arg)
    (Hin : In arg (rspec.Args s)) (Hop : rspec.Op arg = rspec.OpLessThan) :
  syscallValid s = false.
Proof.
  destruct (syscallValid s) eqn:E; [|reflexivity].
  unfold syscallValid in E.
  destruct (negb (seccompActionValid (rspec.Syscall_Action s))); [discriminate|].
  rewrite rangeArgs_Forall, Forall_forall in E. specialize (E arg Hin).
  rewrite Hop in E. discriminate E.
Qed.

(** The theorem at a rule that allows [read] when its first argument is
    less than 3. *)
Lemma syscallValid_less_than_read :
  syscallValid
    {| rspec.Syscall_Name := "read"; rspec.Syscall_Action := rspec.ActAllow;
       rspec.Args := [ {| rspec.Index := 0; rspec.Value := 3; rspec.ValueTwo := 0;
                          rspec.Op := rspec.OpLessThan |} ] |} = false.
Proof.
  apply (@syscallValid_less_than
           {| rspec.Syscall_Name := "read"; rspec.Syscall_Action := rspec.ActAllow;
              rspec.Args := [ {| rspec.Index := 0; rspec.Value := 3; rspec.ValueTwo := 0;
                                 rspec.Op := rspec.OpLessThan |} ] |}
           {| rspec.Index := 0; rspec.Value := 3; rspec.ValueTwo := 0;
              rspec.Op := rspec.OpLessThan |}).
  - simpl. auto.
  - reflexivity.
Defined.

Lemma rangeSyscalls_causes (syscalls : list rspec.Syscall) (e : error) :
  In e (rangeSyscalls syscalls) <->
  exists s, e = ErrSyscall s /\ In s syscalls /\ syscallValid s = false.
Proof.
  rewrite (@loop_In rspec.Syscall (fun s => negb (syscallValid s)) ErrSyscall rangeSyscalls
             eq_refl (fun x rest => eq_refl) syscalls e).
  split; intros (s & H1 & H2 & H3); exists s; repeat split; try assumption;
    now apply not_true_false.
Qed.

(** X11.  The seccomp checker returns an error iff it has its cause in the
    profile: the error for the default action iff this action is not empty
    and none of the five actions; the error for a rule iff the rule is among
    the rules of the profile and not valid; the error for an architecture iff
    the profile declares it and it has no case in the switch. *)
Theorem checkSeccomp_causes (s : rspec.Seccomp) (e : error) :
  In e (checkSeccomp s) <->
  (e = ErrDefaultAction (rspec.DefaultAction s)
   /\ ~ In (rspec.DefaultAction s) seccompActions)
  \/ (exists rule, e = ErrSyscall rule /\ In rule (rspec.Syscalls s)
                   /\ syscallValid rule = false)
  \/ (exists arch, e = ErrArchitecture arch /\ In arch (rspec.Architectures s)
                   /\ ~ In arch recognizedArchitectures).
Proof.
  unfold checkSeccomp.
  rewrite !in_app_iff, rangeSyscalls_causes, rangeArchitectures_In.
  rewrite <- seccompActionValid_actions.
  split.
  - intros [H|[H|(arch & -> & Hin & Hs)]].
    + left. destruct (seccompActionValid (rspec.DefaultAction s)); simpl in H; [tauto|].
      destruct H as [<-|[]]. split; [reflexivity | discriminate].
    + right. left. exact H.
    + right. right. exists arch. repeat split; try assumption.
      rewrite <- switchArchitecture_recognized. congruence.
  - intros [[-> H]|[H|(arch & -> & Hin & Hs)]].
    + left. destruct (seccompActionValid (rspec.DefaultAction s)); simpl; [now elim H | auto].
    + right. left. exact H.
    + right. right. exists arch. repeat split; try assumption.
      rewrite <- switchArchitecture_recognized in Hs.
      now destruct (switchArchitecture arch).
Qed.

(** ** checkLinux, checkProcess: each error and its cause *)

Lemma rangeNamespaces_filter (namespaces : list rspec.Namespace) : forall u,
  fst (rangeNamespaces namespaces u) =
    map ErrNamespace (filter (fun ns => negb (namespaceValid ns)) namespaces).
Proof.
  induction namespaces as [|ns namespaces IH]; intros u; simpl; [reflexivity|].
  destruct (negb (namespaceValid ns)).
  - specialize (IH u). destruct (rangeNamespaces namespaces u). simpl in *. now rewrite IH.
  - destruct (String.eqb _ _); apply IH.
Qed.

Lemma rangeNamespaces_causes (namespaces : list rspec.Namespace) (u : bool) (e : error) :
  In e (fst (rangeNamespaces namespaces u)) <->
  exists ns, e = ErrNamespace ns /\ In ns namespaces
             /\ ~ In (rspec.Namespace_Type ns) namespaceTypes.
Proof.
  rewrite rangeNamespaces_filter, in_map_iff. split.
  - intros (ns & <- & H). apply filter_In in H. destruct H as [Hin Hv].
    exists ns. repeat split; try assumption.
    rewrite <- namespaceValid_types. now destruct (namespaceValid ns).
  - intros (ns & -> & Hin & Hv). exists ns. split; [reflexivity|].
    apply filter_In. split; [assumption|].
    rewrite <- namespaceValid_types in Hv. now destruct (namespaceValid ns).
Qed.

Lemma rangeDevices_causes (devices : list rspec.Device) (e : error) :
  In e (rangeDevices devices) <->
  exists d, e = ErrDevice d /\ In d devices /\ deviceValid d = false.
Proof.
  rewrite (@loop_In rspec.Device (fun d => negb (deviceValid d)) ErrDevice rangeDevices
             eq_refl (fun x rest => eq_refl) devices e).
  split; intros (d & H1 & H2 & H3); exists d; repeat split; try assumption;
    now apply not_true_false.
Qed.

Lemma existsb_isUTS (namespaces : list rspec.Namespace) :
  existsb isUTS namespaces = false <->
  forall ns, In ns namespaces -> rspec.Namespace_Type ns <> rspec.UTSNamespace.
Proof.
  split.
  - intros H ns Hin E.
    assert (Ht : existsb isUTS namespaces = true).
    { apply existsb_exists. exists ns. split; [assumption|].
      unfold isUTS. rewrite E. apply String.eqb_refl. }
    congruence.
  - intros H. destruct (existsb isUTS namespaces) eqn:E; [|reflexivity].
    apply existsb_exists in E. destruct E as (ns & Hin & Hu).
    unfold isUTS in Hu. apply String.eqb_eq in Hu. now elim (H ns Hin).
Qed.

Lemma hostnameErrors_causes (spec : rspec.Spec) (e : error) :
  In e (hostnameErrors spec) <->
  e = ErrHostnameUTS
  /\ rspec.OS (rspec.Platform_ spec) = "linux"
  /\ rspec.Hostname spec <> ""
  /\ forall ns, In ns (rspec.Namespaces (rspec.Linux_ spec)) ->
                rspec.Namespace_Type ns <> rspec.UTSNamespace.
Proof.
  unfold hostnameErrors. rewrite <- existsb_isUTS.
  destruct (String.eqb_spec (rspec.OS (rspec.Platform_ spec)) "linux") as [Hos|Hos];
    destruct (existsb isUTS (rspec.Namespaces (rspec.Linux_ spec)));
    destruct (String.eqb_spec (rspec.Hostname spec) "") as [Hh|Hh]; simpl;
    intuition congruence.
Qed.

(** X12.  [checkLinux] returns an error iff it has its cause in the
    document: more than five mappings of user ids, or of group ids; a
    namespace whose type is none of pid, network, mount, ipc, uts and user; a
    hostname that is not empty on the platform linux while no namespace has
    the type uts; a device that is not valid; an error of the seccomp checker
    for the profile, when there is one; a propagation mode that is neither
    empty nor one of the six modes. *)
Theorem checkLinux_causes (spec : rspec.Spec) (rootfs : string) (e : error) :
  In e (checkLinux spec rootfs) <->
  (e = ErrUIDMappings /\ 5 < List.length (rspec.UIDMappings (rspec.Linux_ spec)))
  \/ (e = ErrGIDMappings /\ 5 < List.length (rspec.GIDMappings (rspec.Linux_ spec)))
  \/ (exists ns, e = ErrNamespace ns /\ In ns (rspec.Namespaces (rspec.Linux_ spec))
                 /\ ~ In (rspec.Namespace_Type ns) namespaceTypes)
  \/ (e = ErrHostnameUTS
      /\ rspec.OS (rspec.Platform_ spec) = "linux"
      /\ rspec.Hostname spec <> ""
      /\ forall ns, In ns (rspec.Namespaces (rspec.Linux_ spec)) ->
                    rspec.Namespace_Type ns <> rspec.UTSNamespace)
  \/ (exists d, e = ErrDevice d /\ In d (rspec.Devices (rspec.Linux_ spec)) /\ deviceValid d = false)
  \/ (exists seccomp, rspec.Seccomp_ (rspec.Linux_ spec) = Some seccomp /\ In e (checkSeccomp seccomp))
  \/ (e = ErrRootfsPropagation /\ ~ In (rspec.RootfsPropagation (rspec.Linux_ spec)) propagationModes).
Proof.
  rewrite checkLinux_parts. unfold mappingsErrors, restErrors.
  rewrite !in_app_iff, rangeNamespaces_causes, hostnameErrors_causes, rangeDevices_causes.
  rewrite <- switchRootfsPropagation_modes.
  assert (Huid : In e (if (5 <? List.length (rspec.UIDMappings (rspec.Linux_ spec)))%nat
                       then [ErrUIDMappings] else [])
                 <-> e = ErrUIDMappings
                     /\ 5 < List.length (rspec.UIDMappings (rspec.Linux_ spec))).
  { destruct (Nat.ltb_spec 5 (List.length (rspec.UIDMappings (rspec.Linux_ spec))));
      simpl; intuition (try lia; congruence). }
  assert (Hgid : In e (if (5 <? List.length (rspec.GIDMappings (rspec.Linux_ spec)))%nat
                       then [ErrGIDMappings] else [])
                 <-> e = ErrGIDMappings
                     /\ 5 < List.length (rspec.GIDMappings (rspec.Linux_ spec))).
  { destruct (Nat.ltb_spec 5 (List.length (rspec.GIDMappings (rspec.Linux_ spec))));
      simpl; intuition (try lia; congruence). }
  assert (Hsec : In e match rspec.Seccomp_ (rspec.Linux_ spec) with
                      | Some seccomp => checkSeccomp seccomp
                      | None => []
                      end
                 <-> exists seccomp, rspec.Seccomp_ (rspec.Linux_ spec) = Some seccomp
                                     /\ In e (checkSeccomp seccomp)).
  { destruct (rspec.Seccomp_ (rspec.Linux_ spec)) as [seccomp|]; simpl.
    - split; [intros H; exists seccomp; auto | intros (s' & E & H); congruence].
    - split; [tauto | intros (s' & E & _); discriminate]. }
  assert (Hmode : In e (switchRootfsPropagation (rspec.RootfsPropagation (rspec.Linux_ spec)))
                  <-> e = ErrRootfsPropagation
                      /\ switchRootfsPropagation (rspec.RootfsPropagation (rspec.Linux_ spec))
                         <> []).
  { unfold switchRootfsPropagation.
    repeat match goal with
           | |- context [if ?b then _ else _] => destruct b; [simpl; intuition congruence|]
           end.
    simpl. intuition congruence. }
  rewrite Huid, Hgid, Hsec, Hmode. tauto.
Qed.

Lemma rangeCapabilities_causes (caps capabilities : list string) (e : error) :
  In e (rangeCapabilities caps capabilities) <->
  exists c, e = ErrCapability c /\ In c capabilities /\ ~ In c caps.
Proof.
  rewrite (@loop_In string (fun c => negb (capValid caps c)) ErrCapability
             (rangeCapabilities caps) eq_refl (fun x rest => eq_refl) capabilities e).
  split; intros (c & H1 & H2 & H3); exists c; repeat split; try assumption;
    now apply rangeNames_not_In.
Qed.

Lemma rangeRlimits_causes (rlimits : list rspec.Rlimit) (e : error) :
  In e (rangeRlimits rlimits) <->
  exists r, e = ErrRlimit (rspec.Rlimit_Type r) /\ In r rlimits
            /\ ~ In (rspec.Rlimit_Type r) defaultRlimits.
Proof.
  rewrite (@loop_In rspec.Rlimit (fun r => negb (rlimitValid (rspec.Rlimit_Type r)))
             (fun r => ErrRlimit (rspec.Rlimit_Type r))
             rangeRlimits eq_refl (fun x rest => eq_refl) rlimits e).
  split; intros (r & H1 & H2 & H3); exists r; repeat split; try assumption;
    now apply rangeNames_not_In.
Qed.

(** X13.  [checkProcess] returns an error iff it has its cause: a working
    directory that is not an absolute path; an entry of the environment that
    [envValid] rejects; a capability that is not among the known
    capabilities; a resource limit whose type is not among the sixteen known
    types; a profile of AppArmor, when one is named, whose file under
    /etc/apparmor.d of the root file system [os.Stat] cannot find. *)
Theorem checkProcess_causes (W : Setting) (spec : rspec.Spec) (rootfs : string) (e : error) :
  In e (checkProcess W spec rootfs) <->
  (e = ErrCwd (rspec.Cwd (rspec.Process_ spec))
   /\ path.IsAbs (rspec.Cwd (rspec.Process_ spec)) = false)
  \/ (exists env, e = ErrEnv env /\ In env (rspec.Env (rspec.Process_ spec))
                  /\ envValid (tables W) env = false)
  \/ (exists c, e = ErrCapability c /\ In c (rspec.Capabilities (rspec.Process_ spec))
                /\ ~ In c (defaultCaps W))
  \/ (exists r, e = ErrRlimit (rspec.Rlimit_Type r)
                /\ In r (rspec.Rlimits (rspec.Process_ spec))
                /\ ~ In (rspec.Rlimit_Type r) defaultRlimits)
  \/ (e = ErrStat (profilePath W spec rootfs)
      /\ rspec.ApparmorProfile (rspec.Process_ spec) <> ""
      /\ Stat W (profilePath W spec rootfs) = None).
Proof.
  unfold checkProcess, profilePath.
  rewrite !in_app_iff, rangeEnv_In, rangeCapabilities_causes, rangeRlimits_causes.
  assert (Hcwd : In e (if negb (path.IsAbs (rspec.Cwd (rspec.Process_ spec)))
                       then [ErrCwd (rspec.Cwd (rspec.Process_ spec))] else [])
                 <-> e = ErrCwd (rspec.Cwd (rspec.Process_ spec))
                     /\ path.IsAbs (rspec.Cwd (rspec.Process_ spec)) = false).
  { destruct (path.IsAbs (rspec.Cwd (rspec.Process_ spec))); simpl; intuition congruence. }
  rewrite Hcwd. clear Hcwd.
  set (profile := rspec.ApparmorProfile (rspec.Process_ spec)).
  set (file := path.Join (Clean W) [rootfs; "/etc/apparmor.d"; profile]).
  assert (Hprofile : In e (if (0 <? String.length profile)%nat
                           then match Stat W file with
                                | Some _ => []
                                | None => [ErrStat file]
                                end
                           else [])
                     <-> e = ErrStat file /\ profile <> "" /\ Stat W file = None).
  { destruct profile as [|c profile']; simpl.
    - intuition congruence.
    - destruct (Stat W file); simpl; intuition congruence. }
  rewrite Hprofile. tauto.
Qed.

(** ** envValid: the value *)

(** X14.  [envValid] never looks at the value of an entry: two entries with
    the same key, a key being free of '=', are both accepted or both
    rejected, whatever stands behind the first '=', be it empty, with more
    '=' in it, or not UTF-8. *)
Theorem envValid_ignores_value (T : unicode.Tables) (key value value' : string)
    (Hkey : occurs "="%char key = false) :
  envValid T (key ++ "=" ++ value)%string = envValid T (key ++ "=" ++ value')%string.
Proof.
  rewrite (@envValid_key T key value Hkey).
  rewrite (@envValid_key T key value' Hkey).
  reflexivity.
Qed.

(** The theorem at the key PATH, for a path and for a value with two '='
    and a byte that is not UTF-8. *)
Lemma envValid_ignores_value_path :
  envValid unicode.noTables ("PATH" ++ "=" ++ "/usr/bin")%string
  = envValid unicode.noTables
      ("PATH" ++ "=" ++ String "="%char (String "="%char (String (ascii_of_nat 255) "")))%string.
Proof.
  apply (@envValid_ignores_value unicode.noTables "PATH" "/usr/bin"
           (String "="%char (String "="%char (String (ascii_of_nat 255) "")))).
  reflexivity.
Defined.

(** ** The command: the root file system *)

Lemma rangeChecks_ext (checks : list configCheck) (spec : rspec.Spec)
    (rootfs rootfs' : string) :
  Forall (fun check : configCheck => check spec rootfs = check spec rootfs') checks ->
  forall st, rangeChecks checks spec rootfs st = rangeChecks checks spec rootfs' st.
Proof.
  induction 1 as [|check checks Hc _ IH]; intros st; simpl; [reflexivity|].
  rewrite Hc. destruct (check spec rootfs'); [apply IH | reflexivity].
Qed.

(** X15.  A run of the command looks at the root file system of the bundle
    for one thing only, the profile of AppArmor: on a document that names no
    profile, the run is the same for any two paths of the root file system.
    The files of the hooks in particular are looked up on the host, not
    under the root file system. *)
Theorem bundleValidate_rootfs (W : Setting) (hooks : bool) (spec : rspec.Spec)
    (rootfs rootfs' : string)
    (Hprofile : rspec.ApparmorProfile (rspec.Process_ spec) = "") :
  bundleValidate W hooks spec rootfs = bundleValidate W hooks spec rootfs'.
Proof.
  unfold bundleValidate.
  rewrite (@rangeChecks_ext (checks W hooks) spec rootfs rootfs'); [reflexivity|].
  unfold checks, pure. repeat constructor.
  unfold checkProcess. now rewrite Hprofile.
Qed.

(** The theorem at [myhostSpec], which names no profile. *)
Lemma bundleValidate_rootfs_myhost :
  bundleValidate bareSetting false myhostSpec "/bundle/rootfs"
  = bundleValidate bareSetting false myhostSpec "/elsewhere".
Proof.
  apply (@bundleValidate_rootfs bareSetting false myhostSpec "/bundle/rootfs" "/elsewhere").
  reflexivity.
Defined.
